(** * ShardedMap: a map partitioned over independently locked shards

    Shallow embedding of
    [02-performance-allocation/02-concurrent-map-with-sharded-locks/concurrent.go]
    and proofs of its sequential (one caller at a time) behaviour.

    Go's [map[K]V] is a [gmap K V] ([None] for the nil map), the slice of
    shards a [list] indexed with a bounds check, Go's [int] and [uint64] are
    [Z] with the conversions written out, and a panic or a lock that can not
    be taken is a constructor of [outcome].

    The code is embedded twice. First for key types on which Go's [==] is
    identity (strings, integers, booleans and what is built from them): a
    Go map is then a [gmap], and the properties are proved of this
    embedding. Then, in [AnyKey], for every comparable key type given with
    its [==]: on [float64] NaN differs from itself and 0 and -0 are equal
    but print differently, and there the code is run to show where the
    properties stop. [identity_keys_agree] relates the two. Keys printed
    through a pointee that changes are outside this development. *)

From Stdlib Require Import ZArith Lia DecimalString.
From stdpp Require Import gmap strings list fin_maps.

Local Open Scope Z_scope.

(** ** Outcomes of a Go call *)

Inductive outcome (A : Type) : Type :=
  | Ok (a : A)
  | Panic (msg : string)
  | Blocked.
Arguments Ok {A} a.
Arguments Panic {A} msg.
Arguments Blocked {A}.

#[export] Instance outcome_ret : MRet outcome := λ A a, Ok a.
#[export] Instance outcome_bind : MBind outcome := λ A B f c,
  match c with
  | Ok a => f a
  | Panic msg => Panic msg
  | Blocked => Blocked
  end.

Definition returns {A} (c : outcome A) : Prop := ∃ a, c = Ok a.
Definition panics {A} (c : outcome A) : Prop := ∃ msg, c = Panic msg.

(** ** Machine integers: [int] and [uint64] on a 64-bit target *)

Definition int_min : Z := - 2 ^ 63.
Definition int_max : Z := 2 ^ 63 - 1.
Definition is_int (z : Z) : Prop := int_min ≤ z ≤ int_max.
Definition is_uint64 (z : Z) : Prop := 0 ≤ z < 2 ^ 64.

(** The conversions [uint64(x)] and [int(x)]: both keep the low 64 bits. *)
Definition to_uint64 (z : Z) : Z := z mod 2 ^ 64.
Definition to_int (z : Z) : Z := (z + 2 ^ 63) mod 2 ^ 64 - 2 ^ 63.

(** ** [hash/fnv]: the 64-bit FNV-1a hasher of Go's standard library *)

Module fnv.
Definition offset64 : Z := 14695981039346656037.
Definition prime64 : Z := 1099511628211.

(** [New64a()]: the hasher is its running sum. *)
Definition New64a : Z := offset64.

(** [Write]: [for _, c := range data { hash ^= sum64a(c); hash *= prime64 }]. *)
Definition Write (s : Z) (data : list Z) : Z :=
  fold_left (λ hash c, to_uint64 (Z.lxor hash c * prime64)) data s.

Definition Sum64 (s : Z) : Z := s.
End fnv.

(** [[]byte(s)]: the bytes of a Go string. *)
Definition bytes_of (s : string) : list Z :=
  (λ c, Z.of_N (Ascii.N_of_ascii c)) <$> String.list_ascii_of_string s.

(** FNV-1a as its specification words it: start from the offset basis and,
    byte after byte, xor the byte in and multiply by the prime modulo 2^64. *)
Fixpoint fnv1a64_from (hash : Z) (bs : list Z) : Z :=
  match bs with
  | [] => hash
  | b :: bs' => fnv1a64_from ((Z.lxor hash b * 1099511628211) mod 18446744073709551616) bs'
  end.
Definition fnv1a64_spec (bs : list Z) : Z := fnv1a64_from 14695981039346656037 bs.

(** ** [sync.RWMutex], as far as one caller at a time can see it *)

Record RWMutex : Type := { writer : bool; readers : nat }.

Definition unlocked : RWMutex := {| writer := false; readers := 0 |}.

Definition RLock (rw : RWMutex) : outcome RWMutex :=
  if writer rw then Blocked
  else Ok {| writer := false; readers := S (readers rw) |}.

Definition RUnlock (rw : RWMutex) : outcome RWMutex :=
  match readers rw with
  | O => Panic "sync: RUnlock of unlocked RWMutex"
  | S n => Ok {| writer := writer rw; readers := n |}
  end.

Definition Lock (rw : RWMutex) : outcome RWMutex :=
  if writer rw then Blocked
  else match readers rw with
       | O => Ok {| writer := true; readers := 0 |}
       | S _ => Blocked
       end.

Definition Unlock (rw : RWMutex) : outcome RWMutex :=
  if writer rw then Ok {| writer := false; readers := readers rw |}
  else Panic "sync: Unlock of unlocked RWMutex".

(** ** Loops [for i := 0; i < n; i++ { body }] *)

Fixpoint for_each {S : Type} (idxs : list Z) (body : Z → S → outcome S) (s : S)
    : outcome S :=
  match idxs with
  | [] => Ok s
  | i :: idxs' => s' ← body i s; for_each idxs' body s'
  end.

Definition indices (n : Z) : list Z := Z.of_nat <$> seq 0 (Z.to_nat n).

Definition for_lt {S : Type} (n : Z) (body : Z → S → outcome S) (s : S)
    : outcome S :=
  for_each (indices n) body s.

(** ** The sharded map *)

(** The longest slice of shards that [make] allocates on a 64-bit target: a
    shard is 32 bytes (the 24 of a [sync.RWMutex] and a map pointer) and the
    runtime refuses a slice of more than 2^48 bytes with a panic. A process
    that runs out of memory below that length dies of a fatal error, which
    is not a panic and is not modelled. *)
Definition max_shards : Z := 2 ^ 43.

(** What the generic code asks of its type parameters: [V any] has a zero
    value, and a key [K comparable] is formatted by [fmt.Sprintf("%v", key)],
    a function of the key as it is represented (0 and -0 are two
    [float64] keys with two texts). *)
Class ZeroValue (V : Type) : Type := zero : V.
Class KeyFormat (K : Type) : Type := Sprintf_v : K → string.

#[export] Instance Z_zero : ZeroValue Z := 0.
#[export] Instance string_zero : ZeroValue string := EmptyString.
(** [%v] prints a string as it is, and an [int] in decimal. *)
#[export] Instance string_format : KeyFormat string := λ s, s.
#[export] Instance Z_format : KeyFormat Z :=
  λ z, NilZero.string_of_int (Z.to_int z).

Section ShardedMap.
Context {K : Type} `{Countable K} `{!KeyFormat K}.
Context {V : Type} `{!ZeroValue V}.

(** A shard of a key type on which [==] is identity ([Countable K]): its
    map is a [gmap]. [AnyKey.shard] is the shard of any key type. *)
Record shard : Type := { mu : RWMutex; data : option (gmap K V) }.

Record ShardedMap : Type := { shards : list shard; numShards : Z }.

(** The zero value of [shard], what [make([]shard[K, V], n)] is filled
    with: an unlocked mutex and a nil map. *)
Definition zero_shard : shard := {| mu := unlocked; data := None |}.

(** [s[i]] on a slice, with Go's bounds check. *)
Definition index (s : list shard) (i : Z) : outcome shard :=
  if bool_decide (0 ≤ i) then
    match s !! Z.to_nat i with
    | Some sh => Ok sh
    | None => Panic "index out of range"
    end
  else Panic "index out of range".

(** [m.shards[i] = sh]. *)
Definition store_shard (i : Z) (sh : shard) (m : ShardedMap)
    : outcome ShardedMap :=
  _ ← index (shards m) i;
  Ok {| shards := <[Z.to_nat i := sh]> (shards m); numShards := numShards m |}.

(** [m.shards[i].mu.op()] for [op] one of the four lock operations. *)
Definition on_mu (op : RWMutex → outcome RWMutex) (i : Z) (m : ShardedMap)
    : outcome ShardedMap :=
  sh ← index (shards m) i;
  mu' ← op (mu sh);
  store_shard i {| mu := mu'; data := data sh |} m.

(** [value, ok := d[key]]: reading a nil map is reading an empty one. *)
Definition map_index (d : option (gmap K V)) (key : K) : V * bool :=
  match d ≫= (λ g, g !! key) with
  | Some v => (v, true)
  | None => (zero, false)
  end.

(** [d[key] = value]: panics on a nil map. *)
Definition map_assign (d : option (gmap K V)) (key : K) (value : V)
    : outcome (option (gmap K V)) :=
  match d with
  | Some g => Ok (Some (<[key := value]> g))
  | None => Panic "assignment to entry in nil map"
  end.

(** [delete(d, key)]: a no-op on a nil map and on an absent key. *)
Definition map_delete (d : option (gmap K V)) (key : K) : option (gmap K V) :=
  delete key <$> d.

(** [len(d)]. *)
Definition map_len (d : option (gmap K V)) : Z :=
  match d with
  | Some g => Z.of_nat (size g)
  | None => 0
  end.

(** [shard[K, V]{data: make(map[K]V)}]. *)
Definition empty_shard : shard := {| mu := unlocked; data := Some ∅ |}.

(** [make([]shard[K, V], n)]: zero shards, or the panic of a length that
    the runtime refuses. *)
Definition make_shards (n : Z) : outcome (list shard) :=
  if bool_decide (0 ≤ n ≤ max_shards) then
    Ok (replicate (Z.to_nat n) zero_shard)
  else Panic "makeslice: len out of range".

Definition NewShardedMap (n : Z) : outcome ShardedMap :=
  if bool_decide (n < 1) then Panic "numShards must be at least 1"
  else
    s ← make_shards n;
    let m := {| numShards := n; shards := s |} in
    for_lt n (λ i m, store_shard i empty_shard m) m.

Definition hashKey (key : K) : Z :=
  let h := fnv.New64a in
  let h := fnv.Write h (bytes_of (Sprintf_v key)) in
  fnv.Sum64 h.

(** [int(hash % uint64(m.numShards))]; the remainder by zero panics. *)
Definition getShard (m : ShardedMap) (key : K) : outcome Z :=
  let hash := hashKey key in
  let n := to_uint64 (numShards m) in
  if bool_decide (n = 0) then Panic "integer divide by zero"
  else Ok (to_int (hash `mod` n)).

Definition Get (key : K) (m : ShardedMap) : outcome (V * bool * ShardedMap) :=
  shardIndex ← getShard m key;
  m ← on_mu RLock shardIndex m;
  sh ← index (shards m) shardIndex;
  let '(value, ok) := map_index (data sh) key in
  m ← on_mu RUnlock shardIndex m;
  Ok (value, ok, m).

Definition Set_ (key : K) (value : V) (m : ShardedMap) : outcome ShardedMap :=
  shardIndex ← getShard m key;
  m ← on_mu Lock shardIndex m;
  sh ← index (shards m) shardIndex;
  d ← map_assign (data sh) key value;
  m ← store_shard shardIndex {| mu := mu sh; data := d |} m;
  on_mu Unlock shardIndex m.

Definition Delete (key : K) (m : ShardedMap) : outcome ShardedMap :=
  shardIndex ← getShard m key;
  m ← on_mu Lock shardIndex m;
  sh ← index (shards m) shardIndex;
  m ← store_shard shardIndex
        {| mu := mu sh; data := map_delete (data sh) key |} m;
  on_mu Unlock shardIndex m.

(** The order in which [for key := range d] visits the keys of the map of
    shard [i] is chosen by the runtime: any enumeration of the keys. *)
Definition range_order : Type := Z → gmap K V → list K.

Definition valid_order (order : range_order) : Prop :=
  ∀ i g, order i g ≡ₚ elements (dom g).

Definition range_keys (order : range_order) (i : Z) (d : option (gmap K V))
    : list K :=
  match d with
  | Some g => order i g
  | None => []
  end.

Definition Keys (order : range_order) (m : ShardedMap)
    : outcome (list K * ShardedMap) :=
  '(m, totalLen) ← for_lt (numShards m) (λ i '(m, totalLen),
      m ← on_mu RLock i m;
      sh ← index (shards m) i;
      let totalLen := totalLen + map_len (data sh) in
      m ← on_mu RUnlock i m;
      Ok (m, totalLen)) (m, 0);
  '(m, keys) ← for_lt (numShards m) (λ i '(m, keys),
      m ← on_mu RLock i m;
      sh ← index (shards m) i;
      let keys := keys ++ range_keys order i (data sh) in
      m ← on_mu RUnlock i m;
      Ok (m, keys)) (m, @nil K);
  Ok (keys, m).

(** Shard [i] with its lock free and [d] as its map, the rest as in [m]. *)
Definition with_data (i : Z) (d : option (gmap K V)) (m : ShardedMap)
    : ShardedMap :=
  {| shards := <[Z.to_nat i := {| mu := unlocked; data := d |}]> (shards m);
     numShards := numShards m |}.

(** The order that lists the keys as [gmap] enumerates them. *)
Definition map_order : range_order := λ _ g, elements (dom g).

(** The keys that [Keys] collects from shard [i], and from all shards. *)
Definition shard_keys (order : range_order) (m : ShardedMap) (i : nat)
    : list K :=
  range_keys order (Z.of_nat i) (shards m !! i ≫= data).

Definition all_keys (order : range_order) (m : ShardedMap) : list K :=
  seq 0 (length (shards m)) ≫= shard_keys order m.

(** *** Well-formed stores

    What [NewShardedMap] establishes and every operation keeps: the shard
    count is a positive [int], the slice has that many shards, and between
    two calls every lock is free and every map allocated. *)
Definition wf (m : ShardedMap) : Prop :=
  1 ≤ numShards m ≤ int_max ∧
  Z.of_nat (length (shards m)) = numShards m ∧
  Forall (λ sh, mu sh = unlocked ∧ is_Some (data sh)) (shards m).

(** Key [key] has an entry in the map of shard [i]. *)
Definition holds (m : ShardedMap) (i : nat) (key : K) : Prop :=
  ∃ sh g, shards m !! i = Some sh ∧ data sh = Some g ∧ is_Some (g !! key).

(** Every key lives in the shard that the router names for it. *)
Definition placed (m : ShardedMap) : Prop :=
  ∀ i key, holds m i key → getShard m key = Ok (Z.of_nat i).

(** *** Calls and their results *)

Inductive op : Type :=
  | OpGet (key : K)
  | OpSet (key : K) (value : V)
  | OpDelete (key : K)
  | OpKeys.

Inductive resp : Type :=
  | RGet (value : V) (ok : bool)
  | RDone
  | RKeys (keys : list K).

(** One call on the store. [Keys] may see any iteration order. *)
Inductive step : ShardedMap → op → resp → ShardedMap → Prop :=
  | step_Get key m value ok m' :
      Get key m = Ok (value, ok, m') →
      step m (OpGet key) (RGet value ok) m'
  | step_Set key value m m' :
      Set_ key value m = Ok m' →
      step m (OpSet key value) RDone m'
  | step_Delete key m m' :
      Delete key m = Ok m' →
      step m (OpDelete key) RDone m'
  | step_Keys order m keys m' :
      valid_order order →
      Keys order m = Ok (keys, m') →
      step m OpKeys (RKeys keys) m'.

(** A sequence of calls, one after the other. *)
Inductive steps : ShardedMap → list op → list resp → ShardedMap → Prop :=
  | steps_nil m : steps m [] [] m
  | steps_cons m o r m' os rs m'' :
      step m o r m' → steps m' os rs m'' →
      steps m (o :: os) (r :: rs) m''.

(** The same, as a program: one call, and a sequence of calls, with the
    iteration order of [Keys] given. *)
Definition exec (order : range_order) (o : op) (m : ShardedMap)
    : outcome (resp * ShardedMap) :=
  match o with
  | OpGet key => '(value, ok, m') ← Get key m; Ok (RGet value ok, m')
  | OpSet key value => m' ← Set_ key value m; Ok (RDone, m')
  | OpDelete key => m' ← Delete key m; Ok (RDone, m')
  | OpKeys => '(keys, m') ← Keys order m; Ok (RKeys keys, m')
  end.

Fixpoint run (order : range_order) (os : list op) (m : ShardedMap)
    : outcome (list resp * ShardedMap) :=
  match os with
  | [] => Ok ([], m)
  | o :: os' =>
      '(r, m1) ← exec order o m;
      '(rs, m2) ← run order os' m1;
      Ok (r :: rs, m2)
  end.

(** The stores that a program can build from [NewShardedMap(n)]. *)
Definition reachable (n : Z) (m : ShardedMap) : Prop :=
  ∃ m0 os rs, NewShardedMap n = Ok m0 ∧ steps m0 os rs m.

(** A call that writes the entry of [key]. *)
Definition writes (key : K) (o : op) : Prop :=
  match o with
  | OpSet key' _ | OpDelete key' => key' = key
  | OpGet _ | OpKeys => False
  end.

(** [key] was never inserted by the calls [os]. *)
Definition never_inserted (key : K) (os : list op) : Prop :=
  ∀ value, OpSet key value ∉ os.

(** Every insertion of [key] among the calls [os] has a later [Delete]
    of [key]; so the last call that writes [key], if any, is a [Delete]. *)
Definition fully_deleted (key : K) (os : list op) : Prop :=
  ∀ pre value post, os = pre ++ OpSet key value :: post → OpDelete key ∈ post.

(** Two results that a caller can not tell apart when the order of
    [Keys] is left open. *)
Definition resp_equiv (r1 r2 : resp) : Prop :=
  match r1, r2 with
  | RGet v1 ok1, RGet v2 ok2 => v1 = v2 ∧ ok1 = ok2
  | RDone, RDone => True
  | RKeys ks1, RKeys ks2 => ∀ key, key ∈ ks1 ↔ key ∈ ks2
  | _, _ => False
  end.

(** *** The reference: one plain map *)

Definition model_step (g : gmap K V) (o : op) : gmap K V :=
  match o with
  | OpSet key value => <[key := value]> g
  | OpDelete key => delete key g
  | OpGet _ | OpKeys => g
  end.

Definition model_run (os : list op) (g : gmap K V) : gmap K V :=
  fold_left model_step os g.

(** The answer that the plain map [g] gives to a call. *)
Definition model_resp (g : gmap K V) (o : op) (r : resp) : Prop :=
  match o, r with
  | OpGet key, RGet value ok => (value, ok) = map_index (Some g) key
  | OpSet _ _, RDone | OpDelete _, RDone => True
  | OpKeys, RKeys keys => keys ≡ₚ elements (dom g)
  | _, _ => False
  end.

Fixpoint model_resps (g : gmap K V) (os : list op) (rs : list resp) : Prop :=
  match os, rs with
  | [], [] => True
  | o :: os', r :: rs' => model_resp g o r ∧ model_resps (model_step g o) os' rs'
  | _, _ => False
  end.

(** What the store answers for [key], read off the shard it routes to. *)
Definition view (m : ShardedMap) (key : K) : option V :=
  match getShard m key with
  | Ok i =>
      match index (shards m) i with
      | Ok sh => data sh ≫= (λ g, g !! key)
      | _ => None
      end
  | _ => None
  end.

(** The store [m] holds what the plain map [g] holds. *)
Definition refines (m : ShardedMap) (g : gmap K V) : Prop :=
  ∀ key, view m key = g !! key.

(** What holds of every store that a program can reach. *)
Definition inv (m : ShardedMap) (g : gmap K V) : Prop :=
  wf m ∧ placed m ∧ refines m g.

End ShardedMap.

#[export] Instance RWMutex_eq_dec : EqDecision RWMutex.
Proof. solve_decision. Defined.

#[export] Instance wf_dec {K : Type} `{Countable K} {V : Type}
  (m : ShardedMap (K:=K) (V:=V)) : Decision (wf m).
Proof. unfold wf. apply _. Defined.

(** ** The stores of the tests: string keys, integer values *)

Definition store16 : ShardedMap (K:=string) (V:=Z) :=
  {| shards := replicate 16 empty_shard; numShards := 16 |}.

(** [store16] after [Set("foo", 42)]: "foo" hashes to shard 7 of 16. *)
Definition store16_foo : ShardedMap (K:=string) (V:=Z) :=
  with_data 7 (Some {["foo" := 42]}) store16.

Definition store1 : ShardedMap (K:=string) (V:=Z) :=
  {| shards := replicate 1 empty_shard; numShards := 1 |}.

Definition store8 : ShardedMap (K:=string) (V:=Z) :=
  {| shards := replicate 8 empty_shard; numShards := 8 |}.

(** The calls of [TestShardedMap_BasicOperations]. *)
Definition basic_calls : list (op (K:=string) (V:=Z)) :=
  [OpSet "foo" 42; OpGet "foo"; OpGet "bar"; OpSet "foo" 100; OpGet "foo";
   OpDelete "foo"; OpGet "foo"].

Definition basic_results : list (resp (K:=string) (V:=Z)) :=
  [RDone; RGet 42 true; RGet 0 false; RDone; RGet 100 true;
   RDone; RGet 0 false].

(** A store that was declared but not made by [NewShardedMap]: the zero
    value of the struct. *)
Definition zero_store : ShardedMap (K:=string) (V:=Z) :=
  {| shards := []; numShards := 0 |}.

(** A store whose shards were allocated but whose maps were not made. *)
Definition nil_maps_store : ShardedMap (K:=string) (V:=Z) :=
  {| shards := replicate 16 zero_shard; numShards := 16 |}.

(** The calls of [TestShardedMap_IntKeys]. *)
Definition int_key_calls : list (op (K:=Z) (V:=string)) :=
  [OpSet 1 "one"; OpSet 2 "two"; OpSet 1000000 "million";
   OpGet 1; OpGet 1000000].

(** The calls of [TestShardedMap_Keys]. *)
Definition five_sets : list (op (K:=string) (V:=Z)) :=
  [OpSet "a" 0; OpSet "b" 1; OpSet "c" 2; OpSet "d" 3; OpSet "e" 4].

(** The store of the read benchmark before it is filled. *)
Definition store64 : ShardedMap (K:=Z) (V:=Z) :=
  {| shards := replicate 64 empty_shard; numShards := 64 |}.

(** [store16_foo] while another reader holds the lock of shard 7. *)
Definition store16_foo_read : ShardedMap (K:=string) (V:=Z) :=
  {| shards := <[7%nat := {| mu := {| writer := false; readers := 1 |};
                            data := Some {["foo" := 42]} |}]>
                 (replicate 16 empty_shard);
     numShards := 16 |}.

(** [store8] after the five [Set]s. *)
Definition store8_five : ShardedMap (K:=string) (V:=Z) :=
  Eval vm_compute in
    match run map_order five_sets store8 with
    | Ok (_, m) => m
    | _ => store8
    end.

(** ** More of the code: the first pass of [Keys], and the callers *)

(** The first loop of [Keys]: the capacity [totalLen] that [make] is given. *)
Definition count_pass {K : Type} `{Countable K} {V : Type}
    (m : ShardedMap (K:=K) (V:=V)) : outcome (ShardedMap (K:=K) (V:=V) * Z) :=
  for_lt (numShards m) (λ i '(m, totalLen),
      m ← on_mu RLock i m;
      sh ← index (shards m) i;
      let totalLen := totalLen + map_len (data sh) in
      m ← on_mu RUnlock i m;
      Ok (m, totalLen)) (m, 0).

(** The loop with which the benchmarks fill a store of [int] keys before
    they read it: [for i := 0; i < n; i++ { m.Set(i, i) }]. *)
Definition populate (n : Z) (m : ShardedMap (K:=Z) (V:=Z))
    : outcome (ShardedMap (K:=Z) (V:=Z)) :=
  for_lt n (λ i m, Set_ i i m) m.

(** ** The aggregator's functional options

    [UserAggregator], [Option], [WithTimeout], [WithLogger] and [New] of the
    aggregator program. A [time.Duration] is its count of nanoseconds; the
    logger and the two fetch functions are values of types left open, and
    [slog.Default()], [fetchProfile] and [fetchOrders] are given. An option
    writes through the pointer it is handed: here it returns the record. *)

Module Aggregator.
Section Options.
Context {Logger Func : Type}.
Context (default_logger : Logger) (fetchProfile fetchOrders : Func).

Record UserAggregator : Type := {
  timeout : Z;
  logger : Logger;
  profileFunc : Func;
  orderFunc : Func
}.

Definition Option : Type := UserAggregator → UserAggregator.

Definition WithTimeout (t : Z) : Option := λ ua,
  {| timeout := t; logger := logger ua;
     profileFunc := profileFunc ua; orderFunc := orderFunc ua |}.

Definition WithLogger (l : Logger) : Option := λ ua,
  {| timeout := timeout ua; logger := l;
     profileFunc := profileFunc ua; orderFunc := orderFunc ua |}.

(** [time.Second]. *)
Definition Second : Z := 1000000000.

Definition New (opts : list Option) : UserAggregator :=
  fold_left (λ agg opt, opt agg) opts
    {| timeout := 2 * Second; logger := default_logger;
       profileFunc := fetchProfile; orderFunc := fetchOrders |}.

(** The options that the package offers. *)
Definition offered (opt : Option) : Prop :=
  (∃ t, opt = WithTimeout t) ∨ (∃ l, opt = WithLogger l).

Definition sets_logger (opt : Option) : Prop := ∃ l, opt = WithLogger l.
Definition sets_timeout (opt : Option) : Prop := ∃ t, opt = WithTimeout t.
End Options.
End Aggregator.

(** ** The same code for every comparable key type

    [K comparable] also admits key types on which Go's [==] is not identity:
    on [float64], 0 and -0 are [==] and print as "0" and "-0", and NaN is
    not [==] to itself. [AnyKey] embeds the same source for a key type given
    with its [==] and its [%v] text, a Go map being its entries: an index
    finds the entry whose key is [==] to the one asked for, an assignment
    overwrites that entry (key and value) or adds one, [delete] removes it. *)

Class GoEq (K : Type) : Type := go_eq : K → K → bool.

(** Key types on which [==] is identity. *)
Definition identity_eq {K : Type} `{EqDecision K} : GoEq K :=
  λ a b, bool_decide (a = b).

(** Four [float64] values: 0, -0, NaN and 1. *)
Inductive float64 : Type := Zero | NegZero | NaN | One.

#[export] Instance float64_eq : GoEq float64 := λ a b,
  match a, b with
  | NaN, _ | _, NaN => false
  | One, One => true
  | One, _ | _, One => false
  | _, _ => true
  end.

#[export] Instance float64_format : KeyFormat float64 := λ x,
  match x with
  | Zero => "0"
  | NegZero => "-0"
  | NaN => "NaN"
  | One => "1"
  end.

Module AnyKey.
Section AnyKey.
Context {K : Type} `{!GoEq K} `{!KeyFormat K}.
Context {V : Type} `{!ZeroValue V}.

(** [map[K]V]: the entries, one for each key up to [==] (and one for each
    assignment of a key that is not [==] to itself). *)
Definition gomap : Type := list (K * V).

(** [d[key]]. *)
Fixpoint lookup (d : gomap) (key : K) : option V :=
  match d with
  | [] => None
  | (k, v) :: d' => if go_eq k key then Some v else lookup d' key
  end.

(** [d[key] = value]. *)
Fixpoint assign (d : gomap) (key : K) (value : V) : gomap :=
  match d with
  | [] => [(key, value)]
  | (k, v) :: d' =>
      if go_eq k key then (key, value) :: d'
      else (k, v) :: assign d' key value
  end.

(** [delete(d, key)]. *)
Fixpoint remove (d : gomap) (key : K) : gomap :=
  match d with
  | [] => []
  | (k, v) :: d' =>
      if go_eq k key then remove d' key else (k, v) :: remove d' key
  end.

Record shard : Type := { mu : RWMutex; data : option gomap }.

Record ShardedMap : Type := { shards : list shard; numShards : Z }.

Definition zero_shard : shard := {| mu := unlocked; data := None |}.

Definition empty_shard : shard := {| mu := unlocked; data := Some [] |}.

Definition index (s : list shard) (i : Z) : outcome shard :=
  if bool_decide (0 ≤ i) then
    match s !! Z.to_nat i with
    | Some sh => Ok sh
    | None => Panic "index out of range"
    end
  else Panic "index out of range".

Definition store_shard (i : Z) (sh : shard) (m : ShardedMap)
    : outcome ShardedMap :=
  _ ← index (shards m) i;
  Ok {| shards := <[Z.to_nat i := sh]> (shards m); numShards := numShards m |}.

Definition on_mu (op : RWMutex → outcome RWMutex) (i : Z) (m : ShardedMap)
    : outcome ShardedMap :=
  sh ← index (shards m) i;
  mu' ← op (mu sh);
  store_shard i {| mu := mu'; data := data sh |} m.

Definition map_index (d : option gomap) (key : K) : V * bool :=
  match d ≫= (λ g, lookup g key) with
  | Some v => (v, true)
  | None => (zero, false)
  end.

Definition map_assign (d : option gomap) (key : K) (value : V)
    : outcome (option gomap) :=
  match d with
  | Some g => Ok (Some (assign g key value))
  | None => Panic "assignment to entry in nil map"
  end.

Definition map_delete (d : option gomap) (key : K) : option gomap :=
  (λ g, remove g key) <$> d.

Definition map_len (d : option gomap) : Z :=
  match d with
  | Some g => Z.of_nat (length g)
  | None => 0
  end.

Definition make_shards (n : Z) : outcome (list shard) :=
  if bool_decide (0 ≤ n ≤ max_shards) then
    Ok (replicate (Z.to_nat n) zero_shard)
  else Panic "makeslice: len out of range".

Definition NewShardedMap (n : Z) : outcome ShardedMap :=
  if bool_decide (n < 1) then Panic "numShards must be at least 1"
  else
    s ← make_shards n;
    let m := {| numShards := n; shards := s |} in
    for_lt n (λ i m, store_shard i empty_shard m) m.

Definition getShard (m : ShardedMap) (key : K) : outcome Z :=
  let hash := hashKey key in
  let n := to_uint64 (numShards m) in
  if bool_decide (n = 0) then Panic "integer divide by zero"
  else Ok (to_int (hash `mod` n)).

Definition Get (key : K) (m : ShardedMap) : outcome (V * bool * ShardedMap) :=
  shardIndex ← getShard m key;
  m ← on_mu RLock shardIndex m;
  sh ← index (shards m) shardIndex;
  let '(value, ok) := map_index (data sh) key in
  m ← on_mu RUnlock shardIndex m;
  Ok (value, ok, m).

Definition Set_ (key : K) (value : V) (m : ShardedMap) : outcome ShardedMap :=
  shardIndex ← getShard m key;
  m ← on_mu Lock shardIndex m;
  sh ← index (shards m) shardIndex;
  d ← map_assign (data sh) key value;
  m ← store_shard shardIndex {| mu := mu sh; data := d |} m;
  on_mu Unlock shardIndex m.

Definition Delete (key : K) (m : ShardedMap) : outcome ShardedMap :=
  shardIndex ← getShard m key;
  m ← on_mu Lock shardIndex m;
  sh ← index (shards m) shardIndex;
  m ← store_shard shardIndex
        {| mu := mu sh; data := map_delete (data sh) key |} m;
  on_mu Unlock shardIndex m.

(** The order of [for key := range d]: any enumeration of the keys of the
    entries. *)
Definition range_order : Type := Z → gomap → list K.

Definition valid_order (order : range_order) : Prop :=
  ∀ i d, order i d ≡ₚ d.*1.

Definition entry_order : range_order := λ _ d, d.*1.

Definition range_keys (order : range_order) (i : Z) (d : option gomap)
    : list K :=
  match d with
  | Some g => order i g
  | None => []
  end.

Definition Keys (order : range_order) (m : ShardedMap)
    : outcome (list K * ShardedMap) :=
  '(m, totalLen) ← for_lt (numShards m) (λ i '(m, totalLen),
      m ← on_mu RLock i m;
      sh ← index (shards m) i;
      let totalLen := totalLen + map_len (data sh) in
      m ← on_mu RUnlock i m;
      Ok (m, totalLen)) (m, 0);
  '(m, keys) ← for_lt (numShards m) (λ i '(m, keys),
      m ← on_mu RLock i m;
      sh ← index (shards m) i;
      let keys := keys ++ range_keys order i (data sh) in
      m ← on_mu RUnlock i m;
      Ok (m, keys)) (m, @nil K);
  Ok (keys, m).

(** One call, and a sequence of calls. *)
Definition exec (order : range_order) (o : op) (m : ShardedMap)
    : outcome (resp * ShardedMap) :=
  match o with
  | OpGet key => '(value, ok, m') ← Get key m; Ok (RGet value ok, m')
  | OpSet key value => m' ← Set_ key value m; Ok (RDone, m')
  | OpDelete key => m' ← Delete key m; Ok (RDone, m')
  | OpKeys => '(keys, m') ← Keys order m; Ok (RKeys keys, m')
  end.

Fixpoint run (order : range_order) (os : list op) (m : ShardedMap)
    : outcome (list resp * ShardedMap) :=
  match os with
  | [] => Ok ([], m)
  | o :: os' =>
      '(r, m1) ← exec order o m;
      '(rs, m2) ← run order os' m1;
      Ok (r :: rs, m2)
  end.

(** Key [key] is found in the map of shard [i]. *)
Definition holds (m : ShardedMap) (i : nat) (key : K) : Prop :=
  ∃ sh g, shards m !! i = Some sh ∧ data sh = Some g ∧
          is_Some (lookup g key).
End AnyKey.
End AnyKey.

(** Stores of [float64] keys, as [NewShardedMap] makes them. *)
Definition fstore (n : nat) : AnyKey.ShardedMap (K:=float64) (V:=Z) :=
  {| AnyKey.shards := replicate n AnyKey.empty_shard;
     AnyKey.numShards := Z.of_nat n |}.

(** ** Key types on which [==] is identity: the two embeddings side by side

    On a key type whose [==] is identity a Go map is a [gmap], and the code
    embedded with [gmap]s above is the code embedded for every key type. *)

Inductive outcome_rel {A B : Type} (R : A → B → Prop)
    : outcome A → outcome B → Prop :=
  | Ok_rel a b : R a b → outcome_rel R (Ok a) (Ok b)
  | Panic_rel msg : outcome_rel R (Panic msg) (Panic msg)
  | Blocked_rel : outcome_rel R Blocked Blocked.

Section Agree.
Context {K : Type} `{Countable K} {V : Type}.

(** The entries [d] are the map [g]. *)
Definition same_map (d : list (K * V)) (g : gmap K V) : Prop :=
  NoDup d.*1 ∧ ∀ k, AnyKey.lookup (GoEq0 := identity_eq) d k = g !! k.

Definition same_shard (sh' : AnyKey.shard (K:=K) (V:=V))
    (sh : shard (K:=K) (V:=V)) : Prop :=
  AnyKey.mu sh' = mu sh ∧
  option_Forall2 same_map (AnyKey.data sh') (data sh).

Definition same_store (m' : AnyKey.ShardedMap (K:=K) (V:=V))
    (m : ShardedMap (K:=K) (V:=V)) : Prop :=
  AnyKey.numShards m' = numShards m ∧
  Forall2 same_shard (AnyKey.shards m') (shards m).

(** The same result, the keys of [Keys] in whatever order. *)
Definition same_resp (r' r : resp (K:=K) (V:=V)) : Prop :=
  match r', r with
  | RGet v' ok', RGet v ok => v' = v ∧ ok' = ok
  | RDone, RDone => True
  | RKeys ks', RKeys ks => ks' ≡ₚ ks
  | _, _ => False
  end.
End Agree.

(** * Properties *)

Lemma bind_Ok {A B} (a : A) (f : A → outcome B) : Ok a ≫= f = f a.
Proof. reflexivity. Qed.

(** ** Integer conversions *)

Lemma to_uint64_small z : 0 ≤ z < 2 ^ 64 → to_uint64 z = z.
Proof. intros Hz. unfold to_uint64. by apply Z.mod_small. Qed.

Lemma to_uint64_range z : is_uint64 (to_uint64 z).
Proof. unfold is_uint64, to_uint64. apply Z.mod_pos_bound. lia. Qed.

Lemma to_int_small z : 0 ≤ z ≤ int_max → to_int z = z.
Proof.
  unfold int_max, to_int. intros Hz.
  rewrite Z.mod_small; lia.
Qed.

(** ** The hash *)

Lemma fnv_Write_range s data : is_uint64 s → is_uint64 (fnv.Write s data).
Proof.
  unfold fnv.Write. revert s.
  induction data as [|c data IH]; intros s Hs; simpl; [done|].
  apply IH, to_uint64_range.
Qed.

Lemma fnv_Write_spec s data : fnv.Write s data = fnv1a64_from s data.
Proof.
  unfold fnv.Write. revert s.
  induction data as [|c data IH]; intros s; simpl; [done|].
  by rewrite IH.
Qed.

Section Properties.
Context {K : Type} `{Countable K} `{!KeyFormat K}.
Context {V : Type} `{!ZeroValue V}.
Implicit Types (m : ShardedMap (K:=K) (V:=V)) (key : K) (value : V).
Implicit Types (sh : shard (K:=K) (V:=V)) (g : gmap K V).
Implicit Types (s : list (shard (K:=K) (V:=V))).
Implicit Types (o : op (K:=K) (V:=V)) (os : list (op (K:=K) (V:=V))).
Implicit Types (r : resp (K:=K) (V:=V)) (rs : list (resp (K:=K) (V:=V))).

Lemma hashKey_range key : is_uint64 (hashKey key).
Proof.
  unfold hashKey, fnv.Sum64, fnv.New64a.
  apply fnv_Write_range. unfold is_uint64, fnv.offset64. lia.
Qed.

(** ** The router on a store with a valid shard count *)

Lemma getShard_mod m key :
  1 ≤ numShards m ≤ int_max →
  getShard m key = Ok (hashKey key `mod` numShards m).
Proof.
  intros Hn. unfold getShard.
  assert (Hmax : int_max < 2 ^ 64) by (unfold int_max; lia).
  rewrite to_uint64_small by lia.
  rewrite bool_decide_eq_false_2 by lia.
  f_equal. apply to_int_small.
  pose proof (Z.mod_pos_bound (hashKey key) (numShards m)). lia.
Qed.

Lemma getShard_bounds m key i :
  1 ≤ numShards m ≤ int_max →
  getShard m key = Ok i → 0 ≤ i < numShards m.
Proof.
  intros Hn. rewrite getShard_mod by done. intros [= <-].
  apply Z.mod_pos_bound. lia.
Qed.

(** ** Indexing the slice of shards *)

Lemma index_lookup s (i : Z) sh :
  0 ≤ i → s !! Z.to_nat i = Some sh → index s i = Ok sh.
Proof.
  intros Hi Hs. unfold index.
  rewrite bool_decide_eq_true_2 by done. by rewrite Hs.
Qed.

Lemma index_Ok_inv s (i : Z) sh :
  index s i = Ok sh → 0 ≤ i ∧ s !! Z.to_nat i = Some sh.
Proof.
  unfold index. case_bool_decide; [|done].
  destruct (s !! Z.to_nat i) eqn:Hs; [|done].
  by intros [= ->].
Qed.

Lemma index_in_range s (i : Z) :
  0 ≤ i < Z.of_nat (length s) → ∃ sh, index s i = Ok sh.
Proof.
  intros Hi.
  destruct (lookup_lt_is_Some_2 s (Z.to_nat i)) as [sh Hsh]; [lia|].
  exists sh. apply index_lookup; [lia | done].
Qed.

Lemma index_out_of_range s (i : Z) :
  ¬ (0 ≤ i < Z.of_nat (length s)) → panics (index s i).
Proof.
  intros Hi. unfold index, panics. case_bool_decide; [|eauto].
  destruct (s !! Z.to_nat i) eqn:Hs; [|eauto].
  apply lookup_lt_Some in Hs. lia.
Qed.

Lemma store_shard_lookup (i : Z) sh sh' m :
  0 ≤ i → shards m !! Z.to_nat i = Some sh' →
  store_shard i sh m
  = Ok {| shards := <[Z.to_nat i := sh]> (shards m);
          numShards := numShards m |}.
Proof.
  intros Hi Hs. unfold store_shard.
  by rewrite (index_lookup _ _ _ Hi Hs).
Qed.

(** Taking and releasing the lock of a shard whose lock is free. *)
Lemma on_mu_free op rw (i : Z) sh m :
  0 ≤ i → shards m !! Z.to_nat i = Some sh → op (mu sh) = Ok rw →
  on_mu op i m
  = Ok {| shards := <[Z.to_nat i := {| mu := rw; data := data sh |}]> (shards m);
          numShards := numShards m |}.
Proof.
  intros Hi Hs Hop. unfold on_mu.
  rewrite (index_lookup _ _ _ Hi Hs), bind_Ok, Hop, bind_Ok.
  by erewrite store_shard_lookup.
Qed.

(** ** Well-formed stores: what each call does *)

Lemma wf_route m key :
  wf m →
  ∃ i sh g, getShard m key = Ok i ∧ 0 ≤ i < numShards m ∧
            shards m !! Z.to_nat i = Some sh ∧
            mu sh = unlocked ∧ data sh = Some g.
Proof.
  intros (Hn & Hlen & Hsh). rewrite Forall_lookup in Hsh.
  pose proof (getShard_mod m key Hn) as Hget.
  pose proof (getShard_bounds m key _ Hn Hget) as Hi.
  destruct (lookup_lt_is_Some_2 (shards m) (Z.to_nat (hashKey key `mod` numShards m)))
    as [sh Hlook]; [lia|].
  destruct (Hsh _ _ Hlook) as [Hmu [g Hg]].
  eauto 10.
Qed.

Lemma Get_wf m key (i : Z) sh :
  0 ≤ i → getShard m key = Ok i →
  shards m !! Z.to_nat i = Some sh → mu sh = unlocked →
  Get key m = Ok (map_index (data sh) key, m).
Proof.
  intros Hi Hget Hlook Hmu. unfold Get.
  rewrite Hget, bind_Ok.
  erewrite on_mu_free; [|done|done|by rewrite Hmu]. rewrite bind_Ok. simpl.
  assert (Hlt : (Z.to_nat i < length (shards m))%nat)
    by (by eapply lookup_lt_Some).
  erewrite index_lookup; [|done|by apply list_lookup_insert_eq].
  rewrite bind_Ok. simpl.
  destruct (map_index (data sh) key) as [value ok].
  erewrite on_mu_free;
    [|done|by apply list_lookup_insert_eq|reflexivity].
  rewrite bind_Ok. simpl. rewrite list_insert_insert_eq.
  do 2 f_equal. destruct m as [s n]. simpl in *. f_equal.
  apply list_insert_id. rewrite Hlook. f_equal.
  destruct sh as [rw d]. simpl in *. by subst rw.
Qed.

Lemma Set_wf m key value (i : Z) sh g :
  0 ≤ i → getShard m key = Ok i →
  shards m !! Z.to_nat i = Some sh → mu sh = unlocked → data sh = Some g →
  Set_ key value m = Ok (with_data i (Some (<[key := value]> g)) m).
Proof.
  intros Hi Hget Hlook Hmu Hg. unfold Set_.
  rewrite Hget, bind_Ok.
  erewrite on_mu_free; [|done|done|by rewrite Hmu]. rewrite bind_Ok. simpl.
  assert (Hlt : (Z.to_nat i < length (shards m))%nat)
    by (by eapply lookup_lt_Some).
  erewrite index_lookup; [|done|by apply list_lookup_insert_eq].
  rewrite bind_Ok. simpl. rewrite Hg. simpl. rewrite ?bind_Ok.
  erewrite store_shard_lookup; [|done|by apply list_lookup_insert_eq].
  rewrite bind_Ok. simpl. rewrite list_insert_insert_eq.
  erewrite on_mu_free;
    [|done|by apply list_lookup_insert_eq|reflexivity].
  simpl. by rewrite list_insert_insert_eq.
Qed.

Lemma Delete_wf m key (i : Z) sh :
  0 ≤ i → getShard m key = Ok i →
  shards m !! Z.to_nat i = Some sh → mu sh = unlocked →
  Delete key m = Ok (with_data i (map_delete (data sh) key) m).
Proof.
  intros Hi Hget Hlook Hmu. unfold Delete.
  rewrite Hget, bind_Ok.
  erewrite on_mu_free; [|done|done|by rewrite Hmu]. rewrite bind_Ok. simpl.
  assert (Hlt : (Z.to_nat i < length (shards m))%nat)
    by (by eapply lookup_lt_Some).
  erewrite index_lookup; [|done|by apply list_lookup_insert_eq].
  rewrite bind_Ok. simpl.
  erewrite store_shard_lookup; [|done|by apply list_lookup_insert_eq].
  rewrite bind_Ok. simpl. rewrite list_insert_insert_eq.
  erewrite on_mu_free;
    [|done|by apply list_lookup_insert_eq|reflexivity].
  simpl. by rewrite list_insert_insert_eq.
Qed.

(** ** Construction *)

Lemma init_loop (n : Z) (cnt a : nat) :
  for_each (Z.of_nat <$> seq a cnt) (λ i m, store_shard i empty_shard m)
    {| shards := replicate a empty_shard ++ replicate cnt zero_shard;
       numShards := n |}
  = Ok {| shards := replicate (a + cnt) empty_shard; numShards := n |}.
Proof.
  revert a. induction cnt as [|cnt IH]; intros a; simpl.
  - by rewrite app_nil_r, Nat.add_0_r.
  - erewrite store_shard_lookup; simpl; [|lia|].
    2:{ rewrite Nat2Z.id, lookup_app_r by (by rewrite length_replicate).
        by rewrite length_replicate, Nat.sub_diag. }
    rewrite ?bind_Ok, ?Nat2Z.id.
    rewrite insert_app_r_alt by (by rewrite length_replicate).
    rewrite length_replicate, Nat.sub_diag. simpl.
    rewrite (cons_middle empty_shard), app_assoc, <- replicate_S_end.
    replace (a + S cnt)%nat with (S a + cnt)%nat by lia. apply IH.
Qed.

Lemma NewShardedMap_Ok (n : Z) :
  1 ≤ n ≤ max_shards →
  NewShardedMap (K:=K) (V:=V) n
  = Ok {| shards := replicate (Z.to_nat n) empty_shard; numShards := n |}.
Proof.
  intros Hn. unfold NewShardedMap, make_shards, for_lt, indices.
  rewrite bool_decide_eq_false_2 by lia.
  rewrite bool_decide_eq_true_2 by lia. rewrite bind_Ok.
  apply (init_loop n (Z.to_nat n) 0).
Qed.

Lemma NewShardedMap_Ok_inv (n : Z) m :
  NewShardedMap n = Ok m → 1 ≤ n ≤ max_shards.
Proof.
  unfold NewShardedMap, make_shards. case_bool_decide; [done|].
  case_bool_decide; [lia|done].
Qed.

Lemma NewShardedMap_Panic_len (n : Z) :
  max_shards < n →
  NewShardedMap (K:=K) (V:=V) n = Panic "makeslice: len out of range".
Proof.
  intros Hn. unfold NewShardedMap, make_shards.
  assert (0 < max_shards) by (unfold max_shards; lia).
  rewrite bool_decide_eq_false_2 by lia.
  by rewrite bool_decide_eq_false_2 by lia.
Qed.

Lemma NewShardedMap_Panic (n : Z) :
  n < 1 → NewShardedMap (K:=K) (V:=V) n = Panic "numShards must be at least 1".
Proof.
  intros Hn. unfold NewShardedMap. by rewrite bool_decide_eq_true_2.
Qed.

Lemma wf_new (n : Z) m : 1 ≤ n ≤ int_max → NewShardedMap n = Ok m → wf m.
Proof.
  intros Hn Hnew. pose proof (NewShardedMap_Ok_inv n m Hnew) as Hlen.
  revert Hnew. rewrite NewShardedMap_Ok by lia. intros [= <-].
  split; [done|]. simpl. split.
  - rewrite length_replicate. lia.
  - apply Forall_lookup. intros i sh [-> _]%lookup_replicate.
    by split; [|eexists].
Qed.

Lemma holds_new (n : Z) m i key : NewShardedMap n = Ok m → ¬ holds m i key.
Proof.
  intros Hnew. pose proof (NewShardedMap_Ok_inv n m Hnew) as Hn.
  revert Hnew. rewrite NewShardedMap_Ok by done.
  intros [= <-] (sh & g & [-> _]%lookup_replicate & [= <-] & Hk).
  rewrite lookup_empty in Hk. by destruct Hk.
Qed.

(** ** Collecting the keys *)

Lemma read_locked m (i : Z) sh :
  0 ≤ i → shards m !! Z.to_nat i = Some sh → mu sh = unlocked →
  ∃ m1 sh1, on_mu RLock i m = Ok m1 ∧ index (shards m1) i = Ok sh1 ∧
            data sh1 = data sh ∧ on_mu RUnlock i m1 = Ok m.
Proof.
  intros Hi Hlook Hmu.
  assert (Hlt : (Z.to_nat i < length (shards m))%nat)
    by (by eapply lookup_lt_Some).
  eexists _, _. split_and!.
  - eapply on_mu_free; [done|done|by rewrite Hmu].
  - simpl. apply index_lookup; [done|by apply list_lookup_insert_eq].
  - done.
  - erewrite on_mu_free; [|done|by apply list_lookup_insert_eq|reflexivity].
    simpl. rewrite list_insert_insert_eq. f_equal.
    destruct m as [s n]. simpl in *. f_equal.
    apply list_insert_id. rewrite Hlook. f_equal.
    destruct sh as [rw d]. simpl in *. by subst rw.
Qed.

(** A loop that reads every shard under its read lock leaves the store
    as it was and folds the maps it saw. *)
Lemma read_pass {A} (F : A → Z → option (gmap K V) → A) m (cnt a : nat)
    (acc : A) :
  (∀ i sh, shards m !! i = Some sh → mu sh = unlocked) →
  (a + cnt ≤ length (shards m))%nat →
  for_each (Z.of_nat <$> seq a cnt)
    (λ i '(m, acc),
       m ← on_mu RLock i m;
       sh ← index (shards m) i;
       let acc := F acc i (data sh) in
       m ← on_mu RUnlock i m;
       Ok (m, acc)) (m, acc)
  = Ok (m, foldl (λ acc i, F acc (Z.of_nat i) (shards m !! i ≫= data))
             acc (seq a cnt)).
Proof.
  intros Hfree. revert a acc.
  induction cnt as [|cnt IH]; intros a acc Hlen; [done|].
  destruct (lookup_lt_is_Some_2 (shards m) a) as [sh Hlook]; [lia|].
  destruct (read_locked m (Z.of_nat a) sh) as (m1 & sh1 & HL & HI & HD & HU);
    [lia|by rewrite Nat2Z.id|by eapply Hfree|].
  cbn [seq fmap list_fmap for_each foldl].
  rewrite HL, bind_Ok, HI, bind_Ok. cbn zeta.
  rewrite HU, bind_Ok, HD, Hlook. cbn [mbind option_bind].
  apply IH. lia.
Qed.

Lemma foldl_app_bind {A B} (f : A → list B) (l : list A) (acc : list B) :
  foldl (λ acc i, acc ++ f i) acc l = acc ++ (l ≫= f).
Proof.
  revert acc. induction l as [|x l IH]; intros acc; csimpl.
  - by rewrite app_nil_r.
  - by rewrite IH, app_assoc.
Qed.

Lemma Keys_wf order m : wf m → Keys order m = Ok (all_keys order m, m).
Proof.
  intros (Hn & Hlen & Hsh). rewrite Forall_lookup in Hsh.
  unfold Keys, for_lt, indices.
  rewrite <- Hlen, Nat2Z.id.
  rewrite (read_pass (λ acc _ d, acc + map_len d));
    [|intros i sh Hi; by destruct (Hsh i sh Hi)|lia].
  rewrite bind_Ok. cbn beta iota. rewrite <- Hlen, Nat2Z.id.
  rewrite (read_pass (λ acc i d, acc ++ range_keys order i d));
    [|intros i sh Hi; by destruct (Hsh i sh Hi)|lia].
  rewrite bind_Ok. cbn beta iota. by rewrite foldl_app_bind.
Qed.

Lemma elem_of_shard_keys order m i key :
  valid_order order → key ∈ shard_keys order m i ↔ holds m i key.
Proof.
  intros Hord. unfold shard_keys, holds, range_keys.
  destruct (shards m !! i) as [sh|] eqn:Hlook; simpl.
  - destruct (data sh) as [g|] eqn:Hg.
    + rewrite (Hord (Z.of_nat i) g), elem_of_elements, elem_of_dom.
      split; [eauto 10|]. intros (sh' & g' & ? & ? & Hk). by simplify_eq.
    + split; [by intros ?%elem_of_nil|]. intros (? & ? & ? & ? & _). by simplify_eq.
  - split; [by intros ?%elem_of_nil|]. by intros (? & ? & ? & _).
Qed.

Lemma elem_of_all_keys order m key :
  valid_order order → key ∈ all_keys order m ↔ ∃ i, holds m i key.
Proof.
  intros Hord. unfold all_keys. rewrite list_elem_of_bind. split.
  - intros (i & Hk & _). exists i. by apply (elem_of_shard_keys order).
  - intros [i Hk]. exists i. split; [by apply elem_of_shard_keys|].
    destruct Hk as (sh & _ & Hlook%lookup_lt_Some & _).
    apply elem_of_seq. lia.
Qed.

Lemma NoDup_all_keys order m :
  valid_order order → placed m → NoDup (all_keys order m).
Proof.
  intros Hord Hpl. unfold all_keys. apply NoDup_bind.
  - intros i1 i2 key _ _ H1%elem_of_shard_keys H2%elem_of_shard_keys; try done.
    apply Hpl in H1, H2. rewrite H1 in H2. injection H2. lia.
  - intros i _. unfold shard_keys, range_keys.
    destruct (shards m !! i ≫= data) as [g|]; [|constructor].
    rewrite (Hord (Z.of_nat i) g). apply NoDup_elements.
  - apply NoDup_seq.
Qed.

(** ** The invariant: well-formedness and placement *)

Lemma getShard_numShards m m' key :
  numShards m = numShards m' → getShard m key = getShard m' key.
Proof. intros Hn. unfold getShard. by rewrite Hn. Qed.

Lemma wf_with_data m (i : Z) d : wf m → is_Some d → wf (with_data i d m).
Proof.
  intros (Hn & Hlen & Hsh) Hd. rewrite Forall_lookup in Hsh.
  split; [done|]. simpl. split.
  - by rewrite length_insert.
  - apply Forall_lookup. intros j sh [(<- & <- & _)|[_ Hj]]%list_lookup_insert_Some; [done|eauto].
Qed.

(** An entry of the updated store is an entry that was there, or sits in
    the updated shard. *)
Lemma holds_with_data m (i : Z) d j key :
  holds (with_data i d m) j key →
  (j ≠ Z.to_nat i ∧ holds m j key) ∨
  (j = Z.to_nat i ∧ ∃ g, d = Some g ∧ is_Some (g !! key)).
Proof.
  intros (sh & g & Hlook & Hg & Hk). simpl in Hlook.
  apply list_lookup_insert_Some in Hlook as [(<- & <- & _)|[Hne Hj]].
  - right. eauto.
  - left. split; [done|]. by exists sh, g.
Qed.

Lemma placed_Set m key value (i : Z) sh g :
  0 ≤ i → getShard m key = Ok i →
  shards m !! Z.to_nat i = Some sh → data sh = Some g → placed m →
  placed (with_data i (Some (<[key := value]> g)) m).
Proof.
  intros Hi Hget Hlook Hg Hpl j k Hk.
  rewrite <- (getShard_numShards m) by done.
  apply holds_with_data in Hk as [[_ Hk]|(-> & g' & [= <-] & Hk)]; [by apply Hpl|].
  rewrite Z2Nat.id by done.
  destruct (decide (key = k)) as [<-|Hne]; [done|].
  rewrite lookup_insert_ne in Hk by done.
  rewrite <- (Z2Nat.id i) by done. apply Hpl. by exists sh, g.
Qed.

Lemma placed_Delete m key (i : Z) sh :
  0 ≤ i → shards m !! Z.to_nat i = Some sh → placed m →
  placed (with_data i (map_delete (data sh) key) m).
Proof.
  intros Hi Hlook Hpl j k Hk.
  rewrite <- (getShard_numShards m) by done.
  apply holds_with_data in Hk as [[_ Hk]|(-> & g' & Hd & Hk)]; [by apply Hpl|].
  apply Hpl. unfold map_delete in Hd.
  destruct (data sh) as [g|] eqn:Hg; [|done]. injection Hd as <-.
  exists sh, g. split_and!; [done..|].
  destruct Hk as [v Hv]. apply lookup_delete_Some in Hv as [_ Hv]. eauto.
Qed.

(** ** The store as one map *)

Lemma view_holds m key :
  is_Some (view m key) → ∃ i, holds m i key.
Proof.
  unfold view. destruct (getShard m key) as [i| |]; [|by intros []..].
  destruct (index (shards m) i) as [sh| |] eqn:Hidx; [|by intros []..].
  apply index_Ok_inv in Hidx as [_ Hlook].
  destruct (data sh) as [g|] eqn:Hg; [|by intros []].
  simpl. intros Hk. exists (Z.to_nat i), sh, g. done.
Qed.

Lemma holds_view m i key :
  placed m → holds m i key → is_Some (view m key).
Proof.
  intros Hpl Hk. unfold view. rewrite (Hpl _ _ Hk).
  destruct Hk as (sh & g & Hlook & Hg & Hk).
  erewrite index_lookup; [|lia|by rewrite Nat2Z.id].
  by rewrite Hg.
Qed.

Lemma view_Get m key :
  wf m →
  Get key m = Ok (match view m key with
                  | Some v => (v, true)
                  | None => (zero, false)
                  end, m).
Proof.
  intros Hwf.
  destruct (wf_route m key Hwf) as (i & sh & g & Hget & Hi & Hlook & Hmu & Hg).
  rewrite (Get_wf m key i sh) by (done || lia).
  unfold view, map_index. rewrite Hget.
  by erewrite index_lookup; [|lia|done].
Qed.

Lemma view_with_data m (i : Z) sh d k (j : Z) :
  wf m → 0 ≤ i → shards m !! Z.to_nat i = Some sh →
  getShard m k = Ok j →
  view (with_data i d m) k
  = if decide (j = i) then d ≫= (λ g, g !! k) else view m k.
Proof.
  intros Hwf Hi Hlook Hgetj. unfold view.
  rewrite <- (getShard_numShards m) by done.
  destruct (wf_route m k Hwf) as (j' & shj & gj & Hgetj' & Hj & Hlookj & _).
  rewrite Hgetj in Hgetj'. injection Hgetj' as <-.
  rewrite Hgetj. simpl. case_decide as Hij.
  - subst j.
    rewrite (index_lookup _ i {| mu := unlocked; data := d |}); [done|lia|].
    apply list_lookup_insert_eq. by eapply lookup_lt_Some.
  - assert (Z.to_nat i ≠ Z.to_nat j) by lia.
    rewrite (index_lookup _ j shj); [|lia|by rewrite list_lookup_insert_ne].
    by rewrite (index_lookup _ j shj) by (done || lia).
Qed.

(** ** The runner follows the step relation *)

Lemma exec_step order o m r m' :
  valid_order order → exec order o m = Ok (r, m') → step m o r m'.
Proof.
  intros Hord Hexec. destruct o as [key|key value|key|]; simpl in Hexec.
  - destruct (Get key m) as [[[value ok] m1]| |] eqn:HGet; [|done..].
    injection Hexec as <- <-. by apply step_Get.
  - destruct (Set_ key value m) as [m1| |] eqn:HSet; [|done..].
    injection Hexec as <- <-. by apply step_Set.
  - destruct (Delete key m) as [m1| |] eqn:HDel; [|done..].
    injection Hexec as <- <-. by apply step_Delete.
  - destruct (Keys order m) as [[keys m1]| |] eqn:HKeys; [|done..].
    injection Hexec as <- <-. by apply (step_Keys order).
Qed.

Lemma run_steps order os m rs m' :
  valid_order order → run order os m = Ok (rs, m') → steps m os rs m'.
Proof.
  intros Hord. revert m rs m'.
  induction os as [|o os IH]; intros m rs m' Hrun; simpl in Hrun.
  - injection Hrun as <- <-. apply steps_nil.
  - destruct (exec order o m) as [[r m1]| |] eqn:Hexec; [|done..].
    simpl in Hrun.
    destruct (run order os m1) as [[rs1 m2]| |] eqn:Hrest; [|done..].
    injection Hrun as <- <-.
    eapply steps_cons; [by eapply exec_step|by apply IH].
Qed.

(** ** One call keeps the invariant and answers as the plain map does *)

Lemma inv_new (n : Z) m : is_int n → NewShardedMap n = Ok m → inv m ∅.
Proof.
  intros [_ Hmax] Hnew.
  assert (1 ≤ n) as Hn.
  { unfold NewShardedMap in Hnew. case_bool_decide; [done|lia]. }
  split_and!.
  - by apply (wf_new n).
  - intros i key Hk. by destruct (holds_new n m i key).
  - intros key. rewrite lookup_empty. apply eq_None_not_Some.
    intros [i Hk]%view_holds. by destruct (holds_new n m i key).
Qed.

Lemma Set_inv m g key value :
  inv m g →
  ∃ m', Set_ key value m = Ok m' ∧ inv m' (<[key := value]> g).
Proof.
  intros (Hwf & Hpl & Href).
  destruct (wf_route m key Hwf) as (i & sh & g0 & Hget & Hi & Hlook & Hmu & Hg).
  eexists. split; [by apply (Set_wf m key value i sh g0); try lia|].
  split_and!.
  - by apply wf_with_data.
  - by apply (placed_Set m key value i sh g0); try lia.
  - intros k.
    destruct (wf_route m k Hwf) as (j & shj & gj & Hgetj & _ & Hlookj & _ & Hgj).
    rewrite (view_with_data m i sh _ k j) by (done || lia).
    destruct (decide (key = k)) as [<-|Hne].
    + rewrite Hget in Hgetj. injection Hgetj as <-.
      rewrite decide_True by done. simpl. by rewrite !lookup_insert_eq.
    + rewrite (lookup_insert_ne g) by done. rewrite <- Href.
      case_decide as Hij; [|done]. subst j. simpl.
      rewrite lookup_insert_ne by done.
      unfold view. rewrite Hgetj.
      rewrite (index_lookup _ i sh) by (done || lia). by rewrite Hg.
Qed.

Lemma Delete_inv m g key :
  inv m g → ∃ m', Delete key m = Ok m' ∧ inv m' (delete key g).
Proof.
  intros (Hwf & Hpl & Href).
  destruct (wf_route m key Hwf) as (i & sh & g0 & Hget & Hi & Hlook & Hmu & Hg).
  eexists. split; [by apply (Delete_wf m key i sh); try lia|].
  split_and!.
  - apply wf_with_data; [done|]. by rewrite Hg.
  - by apply (placed_Delete m key i sh); try lia.
  - intros k.
    destruct (wf_route m k Hwf) as (j & shj & gj & Hgetj & _ & Hlookj & _ & Hgj).
    rewrite (view_with_data m i sh _ k j) by (done || lia).
    rewrite Hg. simpl.
    destruct (decide (key = k)) as [<-|Hne].
    + rewrite Hget in Hgetj. injection Hgetj as <-.
      rewrite decide_True by done. by rewrite !lookup_delete_eq.
    + rewrite (lookup_delete_ne g) by done. rewrite <- Href.
      case_decide as Hij; [|done]. subst j.
      rewrite lookup_delete_ne by done.
      unfold view. rewrite Hgetj.
      rewrite (index_lookup _ i sh) by (done || lia). by rewrite Hg.
Qed.

Lemma Get_inv m g key :
  inv m g → Get key m = Ok (map_index (Some g) key, m).
Proof.
  intros (Hwf & _ & Href). rewrite view_Get by done.
  unfold map_index. simpl. by rewrite Href.
Qed.

Lemma Keys_inv order m g :
  valid_order order → inv m g →
  ∃ keys, Keys order m = Ok (keys, m) ∧ NoDup keys ∧
          (∀ key, key ∈ keys ↔ ∃ i, holds m i key) ∧
          keys ≡ₚ elements (dom g).
Proof.
  intros Hord (Hwf & Hpl & Href). exists (all_keys order m).
  split_and!.
  - by apply Keys_wf.
  - by apply NoDup_all_keys.
  - intros key. by apply elem_of_all_keys.
  - apply NoDup_Permutation; [by apply NoDup_all_keys|apply NoDup_elements|].
    intros key. rewrite elem_of_all_keys, elem_of_elements, elem_of_dom by done.
    rewrite <- Href. split; [|apply view_holds].
    intros [i Hk]. by apply (holds_view m i).
Qed.

Lemma step_inv m g o r m' :
  inv m g → step m o r m' → inv m' (model_step g o) ∧ model_resp g o r.
Proof.
  intros Hinv Hstep. destruct Hstep as
    [key m value ok m' HGet|key value m m' HSet|key m m' HDel
    |order m keys m' Hord HKeys]; simpl.
  - rewrite (Get_inv m g) in HGet by done. by injection HGet as <- <-.
  - destruct (Set_inv m g key value Hinv) as (m1 & HSet1 & Hinv1).
    rewrite HSet in HSet1. by injection HSet1 as <-.
  - destruct (Delete_inv m g key Hinv) as (m1 & HDel1 & Hinv1).
    rewrite HDel in HDel1. by injection HDel1 as <-.
  - destruct (Keys_inv order m g Hord Hinv) as (ks & HKeys1 & _ & _ & Hperm).
    rewrite HKeys in HKeys1. by injection HKeys1 as <- <-.
Qed.

Lemma valid_map_order : valid_order (map_order (K:=K) (V:=V)).
Proof. intros i g. reflexivity. Qed.

Lemma step_progress m g o : inv m g → ∃ r m', step m o r m'.
Proof.
  intros Hinv. destruct o as [key|key value|key|].
  - pose proof (Get_inv m g key Hinv) as HGet.
    destruct (map_index (Some g) key) as [value ok].
    exists (RGet value ok), m. by apply step_Get.
  - destruct (Set_inv m g key value Hinv) as (m' & HSet & _).
    eexists _, _. by apply step_Set.
  - destruct (Delete_inv m g key Hinv) as (m' & HDel & _).
    eexists _, _. by apply step_Delete.
  - destruct (Keys_inv map_order m g valid_map_order Hinv) as (ks & HKeys & _).
    eexists _, _. apply (step_Keys map_order); [apply valid_map_order|done].
Qed.

Lemma steps_inv m g os rs m' :
  inv m g → steps m os rs m' →
  inv m' (model_run os g) ∧ model_resps g os rs.
Proof.
  intros Hinv Hsteps. revert g Hinv.
  induction Hsteps as [m|m o r m1 os rs m2 Hstep _ IH]; intros g Hinv; [done|].
  destruct (step_inv m g o r m1 Hinv Hstep) as [Hinv1 Hresp].
  destruct (IH _ Hinv1) as [Hinv2 Hresps]. by split.
Qed.

Lemma steps_progress m g os : inv m g → ∃ rs m', steps m os rs m'.
Proof.
  revert m g. induction os as [|o os IH]; intros m g Hinv.
  - eexists _, _. apply steps_nil.
  - destruct (step_progress m g o Hinv) as (r & m1 & Hstep).
    destruct (step_inv m g o r m1 Hinv Hstep) as [Hinv1 _].
    destruct (IH m1 _ Hinv1) as (rs & m2 & Hsteps).
    eexists _, _. by eapply steps_cons.
Qed.

(** ** The plain map under a sequence of calls *)

Lemma model_run_app os1 os2 g :
  model_run (os1 ++ os2) g = model_run os2 (model_run os1 g).
Proof. apply fold_left_app. Qed.

Lemma model_run_untouched key os g :
  Forall (λ o, ¬ writes key o) os → model_run os g !! key = g !! key.
Proof.
  intros Hos. revert g.
  induction Hos as [|o os Ho _ IH]; intros g; [done|].
  simpl. rewrite IH. destruct o as [|k v|k|]; simpl in *; [done| | |done].
  - by rewrite lookup_insert_ne.
  - by rewrite lookup_delete_ne.
Qed.

Lemma fully_deleted_snoc key os o :
  fully_deleted key (os ++ [o]) → o ≠ OpDelete key → fully_deleted key os.
Proof.
  intros Hdel Ho pre value post ->.
  assert (OpDelete key ∈ post ++ [o]) as Hin.
  { apply (Hdel pre value). by rewrite <- app_assoc. }
  apply elem_of_app in Hin as [Hin|Hin]; [done|].
  apply list_elem_of_singleton in Hin. by destruct Ho.
Qed.

Lemma model_run_fully_deleted key os :
  fully_deleted key os → model_run os ∅ !! key = None.
Proof.
  induction os as [|o os IH] using rev_ind; intros Hdel; [done|].
  rewrite model_run_app. simpl.
  destruct o as [k|k v|k|]; simpl.
  - by eapply IH, fully_deleted_snoc.
  - destruct (decide (k = key)) as [->|Hne].
    + by destruct (proj1 (elem_of_nil _) (Hdel os v [] eq_refl)).
    + rewrite lookup_insert_ne by done. by eapply IH, fully_deleted_snoc.
  - destruct (decide (k = key)) as [->|Hne]; [apply lookup_delete_eq|].
    rewrite lookup_delete_ne by done.
    eapply IH, fully_deleted_snoc; [done|congruence].
  - by eapply IH, fully_deleted_snoc.
Qed.

Lemma never_inserted_fully_deleted key os :
  never_inserted key os → fully_deleted key os.
Proof.
  intros Hnever pre value post ->. destruct (Hnever value).
  apply elem_of_app. right. apply list_elem_of_here.
Qed.

Lemma model_resps_equiv g os rs1 rs2 :
  model_resps g os rs1 → model_resps g os rs2 → Forall2 resp_equiv rs1 rs2.
Proof.
  revert g rs1 rs2. induction os as [|o os IH]; intros g [|r1 rs1] [|r2 rs2];
    simpl; try done.
  intros [H1 Hrest1] [H2 Hrest2]. constructor; [|by eapply IH].
  destruct o, r1, r2; simpl in *; try done.
  - split; congruence.
  - intros key. by rewrite H1, H2.
Qed.

Lemma step_numShards m g o r m' :
  inv m g → step m o r m' → numShards m' = numShards m.
Proof.
  intros Hinv Hstep. pose proof Hinv as (Hwf & _).
  destruct Hstep as [k m v ok m' HGet|k v m m' HSet|k m m' HDel
                    |order m ks m' Hord HKeys].
  - rewrite (Get_inv m g) in HGet by done. by simplify_eq.
  - destruct (wf_route m k Hwf) as (i & sh & g0 & ? & ? & ? & ? & ?).
    rewrite (Set_wf m k v i sh g0) in HSet by (done || lia).
    by simplify_eq.
  - destruct (wf_route m k Hwf) as (i & sh & g0 & ? & ? & ? & ? & ?).
    rewrite (Delete_wf m k i sh) in HDel by (done || lia).
    by simplify_eq.
  - rewrite Keys_wf in HKeys by done. by simplify_eq.
Qed.

Lemma steps_numShards m g os rs m' :
  inv m g → steps m os rs m' → numShards m' = numShards m.
Proof.
  intros Hinv Hsteps. revert g Hinv.
  induction Hsteps as [m|m o r m1 os rs m2 Hstep _ IH]; intros g Hinv; [done|].
  destruct (step_inv m g o r m1 Hinv Hstep) as [Hinv1 _].
  rewrite (IH _ Hinv1). by apply (step_numShards m g o r).
Qed.

Lemma reachable_inv (n : Z) m :
  is_int n → reachable n m →
  ∃ os rs, inv m (model_run os ∅) ∧ model_resps ∅ os rs.
Proof.
  intros Hint (m0 & os & rs & Hnew & Hsteps). exists os, rs.
  apply (steps_inv m0); [|done]. by apply (inv_new n).
Qed.

Lemma reachable_wf (n : Z) m : is_int n → reachable n m → wf m.
Proof.
  intros Hint Hreach.
  by destruct (reachable_inv n m Hint Hreach) as (os & rs & (Hwf & _) & _).
Qed.

Lemma with_data_lookup m (i : Z) sh d :
  shards m !! Z.to_nat i = Some sh →
  shards (with_data i d m) !! Z.to_nat i = Some {| mu := unlocked; data := d |}.
Proof.
  intros Hlook. simpl. apply list_lookup_insert_eq. by eapply lookup_lt_Some.
Qed.

Lemma with_data_twice m (i : Z) d d' :
  with_data i d' (with_data i d m) = with_data i d' m.
Proof. unfold with_data. simpl. by rewrite list_insert_insert_eq. Qed.

Lemma with_data_id m (i : Z) sh d :
  shards m !! Z.to_nat i = Some sh → mu sh = unlocked → data sh = d →
  with_data i d m = m.
Proof.
  intros Hlook Hmu Hd. destruct m as [s n]. unfold with_data. simpl in *.
  f_equal. apply list_insert_id. rewrite Hlook. f_equal.
  destruct sh as [rw d0]. simpl in *. by subst.
Qed.

(** * The properties of the specification *)

(** C1, amended. For key types on which [==] is identity (as not on
    [float64], [Get_after_Set_counterexample]).
    On a store made by [NewShardedMap(n)], n >= 1, and whatever was
    called on it since, [Set(key, value)] returns, and after any further
    calls none of which is a [Set] or a [Delete] of [key] (calls on other
    keys, [Get]s and [Keys] are allowed), [Get(key)] returns
    [(value, true)]. *)
Theorem Get_after_Set (n : Z) m key value :
  is_int n → 1 ≤ n → reachable n m →
  ∃ m1, Set_ key value m = Ok m1 ∧
    ∀ os rs m2, steps m1 os rs m2 → Forall (λ o, ¬ writes key o) os →
      Get key m2 = Ok (value, true, m2).
Proof.
  intros Hint _ Hreach.
  destruct (reachable_inv n m Hint Hreach) as (os0 & rs0 & Hinv & _).
  destruct (Set_inv m _ key value Hinv) as (m1 & HSet & Hinv1).
  exists m1. split; [done|]. intros os rs m2 Hsteps Hos.
  destruct (steps_inv m1 _ os rs m2 Hinv1 Hsteps) as [Hinv2 _].
  rewrite (Get_inv m2 _ key Hinv2). unfold map_index. simpl.
  by rewrite model_run_untouched, lookup_insert_eq.
Qed.

(** C2, amended. For key types on which [==] is identity (as not on
    [float64], [Get_absent_counterexample]).
    A key that the calls made on the store never inserted, or whose
    every insertion was followed by a [Delete] of it, is absent: [Get]
    returns the zero value and [false], as a normal result. *)
Theorem Get_absent (n : Z) m0 os rs m key :
  is_int n → 1 ≤ n → NewShardedMap n = Ok m0 → steps m0 os rs m →
  never_inserted key os ∨ fully_deleted key os →
  Get key m = Ok (zero, false, m).
Proof.
  intros Hint _ Hnew Hsteps Habsent.
  destruct (steps_inv m0 ∅ os rs m) as [Hinv _];
    [by apply (inv_new n)|done|].
  rewrite (Get_inv m _ key Hinv). unfold map_index. simpl.
  rewrite model_run_fully_deleted; [done|].
  destruct Habsent as [Hnever|Hdel]; [|done].
  by apply never_inserted_fully_deleted.
Qed.

(** C3, amended. [NewShardedMap(n)] panics exactly when n < 1 or n is
    more than the longest slice of shards that [make] allocates (2^43 on a
    64-bit target), with the message of its own check exactly when n < 1.
    For every n from 1 to that length it returns a store of
    exactly n shards, each unlocked and with an empty map, on which every
    [Get] returns the zero value and [false] and [Keys] returns the empty
    sequence. *)
Theorem NewShardedMap_spec (n : Z) :
  is_int n →
  (panics (NewShardedMap (K:=K) (V:=V) n) ↔ n < 1 ∨ max_shards < n) ∧
  (NewShardedMap (K:=K) (V:=V) n = Panic "numShards must be at least 1"
   ↔ n < 1) ∧
  (1 ≤ n ≤ max_shards →
   ∃ m, NewShardedMap n = Ok m ∧ numShards m = n ∧
        Z.of_nat (length (shards m)) = n ∧
        Forall (λ sh, sh = empty_shard) (shards m) ∧
        (∀ key, Get key m = Ok (zero, false, m)) ∧
        (∀ order, valid_order order → Keys order m = Ok ([], m))).
Proof.
  intros Hint. split_and!.
  - split.
    + intros [msg Hpanic].
      destruct (decide (n < 1 ∨ max_shards < n)) as [|Hin]; [done|].
      rewrite NewShardedMap_Ok in Hpanic by lia. done.
    + intros [Hlt|Hgt].
      * eexists. by apply NewShardedMap_Panic.
      * eexists. by apply NewShardedMap_Panic_len.
  - split; [|apply NewShardedMap_Panic].
    intros Hpanic. destruct (decide (n < 1)) as [|Hge]; [done|].
    destruct (decide (n ≤ max_shards)) as [Hle|Hgt].
    + rewrite NewShardedMap_Ok in Hpanic by lia. done.
    + rewrite NewShardedMap_Panic_len in Hpanic by lia. done.
  - intros Hn. pose proof (NewShardedMap_Ok n Hn) as Hnew.
    eexists. split; [done|]. simpl.
    pose proof (inv_new n _ Hint Hnew) as Hinv.
    split_and!.
    + done.
    + rewrite length_replicate. lia.
    + apply Forall_replicate. done.
    + intros key. by rewrite (Get_inv _ ∅ key Hinv).
    + intros order Hord.
      destruct (Keys_inv order _ ∅ Hord Hinv) as (ks & HKeys & _ & _ & Hperm).
      rewrite HKeys. rewrite dom_empty_L, elements_empty in Hperm.
      by apply Permutation_nil_r in Hperm as ->.
Qed.

(** C4, amended. For key types on which [==] is identity (as not on
    [float64], [Keys_exact_counterexample]).
    On a store reached by any sequence of calls (so in particular by
    [Set]s and [Delete]s), one after the other, [Keys] returns a sequence
    without duplicates whose members are exactly the keys that have an
    entry in some shard, which are exactly the keys that [Get] finds and
    exactly the keys left by the calls made; this in whatever order the
    maps are iterated. *)
Theorem Keys_exact (n : Z) m0 os rs m order :
  is_int n → 1 ≤ n → NewShardedMap n = Ok m0 → steps m0 os rs m →
  valid_order order →
  ∃ keys, Keys order m = Ok (keys, m) ∧ NoDup keys ∧
    (∀ key, key ∈ keys ↔ ∃ i, holds m i key) ∧
    (∀ key, key ∈ keys ↔ ∃ value, Get key m = Ok (value, true, m)) ∧
    (∀ key, key ∈ keys ↔ is_Some (model_run os ∅ !! key)).
Proof.
  intros Hint _ Hnew Hsteps Hord.
  destruct (steps_inv m0 ∅ os rs m) as [Hinv _];
    [by apply (inv_new n)|done|].
  destruct (Keys_inv order m _ Hord Hinv) as (ks & HKeys & Hnodup & Hmem & Hperm).
  exists ks. split_and!; [done..| |].
  - intros key. rewrite Hperm, elem_of_elements, elem_of_dom.
    rewrite (Get_inv m _ key Hinv). unfold map_index. simpl.
    destruct (model_run os ∅ !! key) as [v|]; split.
    + intros _. by exists v.
    + by intros _.
    + by intros [].
    + by intros [v [=]].
  - intros key. by rewrite Hperm, elem_of_elements, elem_of_dom.
Qed.

(** C5. On every well-formed store, so on every store that a program can
    reach ([reachable_wf]), [Delete(key)] returns; calling it
    again returns and leaves the store exactly as the first call left it;
    [key] is absent afterwards; and where [key] was absent to begin with,
    [Delete(key)] returns the store unchanged. *)
Theorem Delete_idempotent m key :
  wf m →
  ∃ m1, Delete key m = Ok m1 ∧ Delete key m1 = Ok m1 ∧
        Get key m1 = Ok (zero, false, m1) ∧
        ((∃ value, Get key m = Ok (value, false, m)) → m1 = m).
Proof.
  intros Hwf.
  destruct (wf_route m key Hwf) as (i & sh & g & Hget & Hi & Hlook & Hmu & Hg).
  pose proof (Delete_wf m key i sh (proj1 Hi) Hget Hlook Hmu) as HDel.
  rewrite Hg in HDel. simpl in HDel.
  set (m1 := with_data i (Some (delete key g)) m) in *.
  assert (getShard m1 key = Ok i) as Hget1
    by (by rewrite <- (getShard_numShards m)).
  pose proof (with_data_lookup m i sh (Some (delete key g)) Hlook) as Hlook1.
  exists m1. split_and!.
  - done.
  - rewrite (Delete_wf m1 key i _ (proj1 Hi) Hget1 Hlook1) by done.
    simpl. unfold m1. by rewrite with_data_twice, delete_delete_eq.
  - rewrite (Get_wf m1 key i _ (proj1 Hi) Hget1 Hlook1) by done.
    unfold map_index. simpl. by rewrite lookup_delete_eq.
  - intros [value HGet].
    rewrite (Get_wf m key i sh) in HGet by (done || lia).
    unfold map_index in HGet. rewrite Hg in HGet. simpl in HGet.
    destruct (g !! key) as [v|] eqn:Hk; [done|].
    unfold m1. rewrite delete_id by done. by apply (with_data_id m i sh).
Qed.

(** C6, amended. For key types on which [==] is identity (as not on
    [float64], [Set_overwrites_counterexample]).
    [Set] overwrites without condition: on every well-formed store,
    whether or not [key] is present, [Set(key, v1)] then [Set(key, v2)]
    return, [Get(key)] then returns [(v2, true)], and the store is the one
    that [Set(key, v2)] alone builds from the same start. *)
Theorem Set_overwrites m key (v1 v2 : V) :
  wf m →
  ∃ m1 m2, Set_ key v1 m = Ok m1 ∧ Set_ key v2 m1 = Ok m2 ∧
           Get key m2 = Ok (v2, true, m2) ∧ Set_ key v2 m = Ok m2.
Proof.
  intros Hwf.
  destruct (wf_route m key Hwf) as (i & sh & g & Hget & Hi & Hlook & Hmu & Hg).
  set (m1 := with_data i (Some (<[key := v1]> g)) m).
  set (m2 := with_data i (Some (<[key := v2]> g)) m).
  assert (getShard m1 key = Ok i) as Hget1
    by (by rewrite <- (getShard_numShards m)).
  assert (getShard m2 key = Ok i) as Hget2
    by (by rewrite <- (getShard_numShards m)).
  pose proof (with_data_lookup m i sh (Some (<[key := v1]> g)) Hlook) as Hlook1.
  pose proof (with_data_lookup m i sh (Some (<[key := v2]> g)) Hlook) as Hlook2.
  exists m1, m2. split_and!.
  - by apply (Set_wf m key v1 i sh g); try lia.
  - rewrite (Set_wf m1 key v2 i _ (<[key := v1]> g) (proj1 Hi) Hget1 Hlook1)
      by done.
    unfold m1, m2. by rewrite with_data_twice, insert_insert_eq.
  - rewrite (Get_wf m2 key i _ (proj1 Hi) Hget2 Hlook2) by done.
    unfold map_index. simpl. by rewrite lookup_insert_eq.
  - by apply (Set_wf m key v2 i sh g); try lia.
Qed.

(** C7. [hashKey] is the 64-bit FNV-1a hash of the bytes of the formatted
    key, and [getShard] reduces it modulo the shard count: on every store
    reached from [NewShardedMap(n)], n >= 1, the index is in [0, n), the
    slice has a shard there, so [Get], [Set] and [Delete] return rather
    than panic on an index out of range; and for n = 1 the index is 0. *)
Theorem getShard_in_bounds (n : Z) m key :
  is_int n → 1 ≤ n → reachable n m →
  hashKey key = fnv1a64_spec (bytes_of (Sprintf_v key)) ∧
  is_uint64 (hashKey key) ∧
  ∃ i, getShard m key = Ok i ∧ i = hashKey key `mod` n ∧
       0 ≤ i < n ∧ n = Z.of_nat (length (shards m)) ∧
       returns (index (shards m) i) ∧
       returns (Get key m) ∧ (∀ value, returns (Set_ key value m)) ∧
       returns (Delete key m) ∧
       (n = 1 → i = 0).
Proof.
  intros Hint Hn Hreach. split; [|split].
  - unfold hashKey, fnv.Sum64, fnv.New64a, fnv.offset64, fnv1a64_spec.
    apply fnv_Write_spec.
  - apply hashKey_range.
  - pose proof Hreach as (m0 & os & rs & Hnew & Hsteps).
    assert (numShards m0 = n) as Hn0.
    { pose proof (NewShardedMap_Ok_inv n m0 Hnew) as Hlim.
      rewrite NewShardedMap_Ok in Hnew by done. by injection Hnew as <-. }
    pose proof (inv_new n m0 Hint Hnew) as Hinv0.
    assert (numShards m = numShards m0) as Hnm
      by (by apply (steps_numShards m0 ∅ os rs m)).
    destruct (reachable_inv n m Hint Hreach) as (os' & rs' & Hinv & _).
    pose proof Hinv as (Hwf & _).
    destruct (wf_route m key Hwf) as (i & sh & g & Hget & Hi & Hlook & Hmu & Hg).
    pose proof Hwf as (Hcount & Hlen & _).
    assert (numShards m = n) as Hmn by congruence.
    exists i. rewrite Hmn in *. split_and!; try done; try lia.
    + rewrite getShard_mod in Hget by (by rewrite Hmn).
      injection Hget as <-. by rewrite Hmn.
    + exists sh. apply index_lookup; [lia|done].
    + eexists. by apply (Get_inv m _ key Hinv).
    + intros value. destruct (Set_inv m _ key value Hinv) as (m' & HSet & _).
      by exists m'.
    + destruct (Delete_inv m _ key Hinv) as (m' & HDel & _). by exists m'.
Qed.

(** C8, amended. For key types on which [==] is identity (as not on
    [float64], [shard_placement_counterexample]).
    In every store reached from [NewShardedMap(n)] by [Get], [Set],
    [Delete] and [Keys] calls, a key with an entry in the map of shard [i]
    is routed to [i]; so no key has entries in two shards, and a key that
    is present lives in exactly one. *)
Theorem shard_placement (n : Z) m :
  is_int n → 1 ≤ n → reachable n m →
  (∀ i key, holds m i key → getShard m key = Ok (Z.of_nat i)) ∧
  (∀ i j key, holds m i key → holds m j key → i = j) ∧
  (∀ key, (∃ i, holds m i key) →
          ∃ i, holds m i key ∧ ∀ j, holds m j key → j = i).
Proof.
  intros Hint _ Hreach.
  destruct (reachable_inv n m Hint Hreach) as (os & rs & (_ & Hpl & _) & _).
  assert (∀ i j key, holds m i key → holds m j key → i = j) as Hdisj.
  { intros i j key Hi%Hpl Hj%Hpl. rewrite Hi in Hj. injection Hj. lia. }
  split_and!; [done..|].
  intros key [i Hi]. exists i. split; [done|].
  intros j Hj. by apply (Hdisj j i key).
Qed.

(** C9, amended. For key types on which [==] is identity (as not on
    [float64], [one_shard_equivalent_counterexample]).
    For every n >= 1 and every sequence of [Get], [Set], [Delete] and
    [Keys] calls, the sequence runs to its end on a store from
    [NewShardedMap(1)] and on one from [NewShardedMap(n)], and however
    the maps are iterated the two runs answer alike: every [Get] with the
    same value and flag, every [Keys] with the same keys as a set. *)
Theorem one_shard_equivalent (n : Z) m1 mn os :
  is_int n → 1 ≤ n →
  NewShardedMap 1 = Ok m1 → NewShardedMap n = Ok mn →
  (∃ rs1 m1' rsn mn', steps m1 os rs1 m1' ∧ steps mn os rsn mn') ∧
  (∀ rs1 m1' rsn mn', steps m1 os rs1 m1' → steps mn os rsn mn' →
     Forall2 resp_equiv rs1 rsn).
Proof.
  intros Hint Hn Hnew1 Hnewn.
  assert (is_int 1) as Hint1 by (unfold is_int, int_min, int_max; lia).
  pose proof (inv_new 1 _ Hint1 Hnew1) as Hinv1.
  pose proof (inv_new n _ Hint Hnewn) as Hinvn.
  split.
  - destruct (steps_progress _ ∅ os Hinv1) as (rs1 & m1' & Hsteps1).
    destruct (steps_progress _ ∅ os Hinvn) as (rsn & mn' & Hstepsn).
    by exists rs1, m1', rsn, mn'.
  - intros rs1 m1' rsn mn' Hsteps1 Hstepsn.
    destruct (steps_inv _ ∅ os rs1 m1' Hinv1 Hsteps1) as [_ Hresps1].
    destruct (steps_inv _ ∅ os rsn mn' Hinvn Hstepsn) as [_ Hrespsn].
    by apply (model_resps_equiv ∅ os).
Qed.

(** C10. The shard index is a function of the key and the shard count
    alone: two stores with the same shard count route a key alike whatever
    they hold, and whatever was called on a store from [NewShardedMap(n)]
    the index of [key] is [hashKey key mod n]. *)
Theorem getShard_deterministic (n : Z) key :
  is_int n → 1 ≤ n →
  (∀ m m', numShards m = n → numShards m' = n →
           getShard m key = getShard m' key) ∧
  (∀ m, reachable n m → getShard m key = Ok (hashKey key `mod` n)).
Proof.
  intros Hint Hn. split.
  - intros m m' Hm Hm'. apply getShard_numShards. congruence.
  - intros m (m0 & os & rs & Hnew & Hsteps).
    pose proof (inv_new n m0 Hint Hnew) as Hinv0.
    pose proof (steps_numShards m0 ∅ os rs m Hinv0 Hsteps) as Hnm.
    pose proof (NewShardedMap_Ok_inv n m0 Hnew) as Hlim.
    rewrite NewShardedMap_Ok in Hnew by done. injection Hnew as <-.
    simpl in Hnm. rewrite <- Hnm. apply getShard_mod.
    rewrite Hnm. destruct Hint. lia.
Qed.

End Properties.

(** * More properties of the code *)

Lemma bind_Ok_inv {A B} (c : outcome A) (f : A → outcome B) b :
  c ≫= f = Ok b → ∃ a, c = Ok a ∧ f a = Ok b.
Proof. destruct c as [a| |]; [eauto | discriminate | discriminate]. Qed.

Lemma RLock_inv rw rw' :
  RLock rw = Ok rw' →
  writer rw = false ∧ rw' = {| writer := false; readers := S (readers rw) |}.
Proof. unfold RLock. destruct (writer rw); [done|]. by intros [= <-]. Qed.

Lemma Lock_inv rw rw' :
  Lock rw = Ok rw' → rw = unlocked ∧ rw' = {| writer := true; readers := 0 |}.
Proof.
  unfold Lock. destruct rw as [[] [|n]]; simpl; try done. by intros [= <-].
Qed.

Lemma for_each_invariant {S : Type} (P : S → Prop) (body : Z → S → outcome S)
    (idxs : list Z) (s s' : S) :
  (∀ i s1 s2, P s1 → body i s1 = Ok s2 → P s2) →
  P s → for_each idxs body s = Ok s' → P s'.
Proof.
  intros Hbody. revert s. induction idxs as [|i idxs IH]; intros s Hs Hrun.
  - simpl in Hrun. by injection Hrun as <-.
  - simpl in Hrun. apply bind_Ok_inv in Hrun as (s1 & Hs1 & Hrest).
    eapply IH; [|done]. by eapply Hbody.
Qed.

Section MoreProperties.
Context {K : Type} `{Countable K} `{!KeyFormat K}.
Context {V : Type} `{!ZeroValue V}.
Implicit Types (m : ShardedMap (K:=K) (V:=V)) (key : K) (value : V).
Implicit Types (sh : shard (K:=K) (V:=V)) (g : gmap K V).
Implicit Types (o : op (K:=K) (V:=V)) (os : list (op (K:=K) (V:=V))).
Implicit Types (r : resp (K:=K) (V:=V)) (rs : list (resp (K:=K) (V:=V))).

(** ** What a call that returns has done, on any store *)

Lemma store_shard_inv (i : Z) sh m m' :
  store_shard i sh m = Ok m' →
  0 ≤ i ∧ is_Some (shards m !! Z.to_nat i) ∧
  m' = {| shards := <[Z.to_nat i := sh]> (shards m); numShards := numShards m |}.
Proof.
  unfold store_shard. intros (sh0 & [Hi Hlook]%index_Ok_inv & [= <-])%bind_Ok_inv.
  eauto.
Qed.

Lemma on_mu_inv op (i : Z) m m' :
  on_mu op i m = Ok m' →
  ∃ sh rw, 0 ≤ i ∧ shards m !! Z.to_nat i = Some sh ∧ op (mu sh) = Ok rw ∧
    m' = {| shards := <[Z.to_nat i := {| mu := rw; data := data sh |}]> (shards m);
            numShards := numShards m |}.
Proof.
  unfold on_mu. intros (sh & [Hi Hlook]%index_Ok_inv & Hrest)%bind_Ok_inv.
  apply bind_Ok_inv in Hrest as (rw & Hop & (_ & _ & ->)%store_shard_inv).
  by exists sh, rw.
Qed.

(** A read under the read lock: what it needs and what it leaves. *)
Lemma read_shared m (i : Z) sh :
  0 ≤ i → shards m !! Z.to_nat i = Some sh → writer (mu sh) = false →
  ∃ m1 sh1, on_mu RLock i m = Ok m1 ∧ index (shards m1) i = Ok sh1 ∧
            data sh1 = data sh ∧ on_mu RUnlock i m1 = Ok m.
Proof.
  intros Hi Hlook Hw.
  assert (Hlt : (Z.to_nat i < length (shards m))%nat)
    by (by eapply lookup_lt_Some).
  eexists _, _. split_and!.
  - eapply on_mu_free; [done|done|]. unfold RLock. by rewrite Hw.
  - simpl. apply index_lookup; [done|by apply list_lookup_insert_eq].
  - done.
  - erewrite on_mu_free; [|done|by apply list_lookup_insert_eq|reflexivity].
    simpl. rewrite list_insert_insert_eq. f_equal.
    destruct m as [s n]. simpl in *. f_equal.
    apply list_insert_id. rewrite Hlook. f_equal.
    destruct sh as [[w n0] d]. simpl in *. by subst w.
Qed.

Lemma read_shared_inv (i : Z) m m1 :
  on_mu RLock i m = Ok m1 →
  ∃ sh, 0 ≤ i ∧ shards m !! Z.to_nat i = Some sh ∧ writer (mu sh) = false.
Proof.
  intros (sh & rw & Hi & Hlook & [Hw _]%RLock_inv & _)%on_mu_inv. eauto.
Qed.

Lemma Get_Ok_inv m key value ok m' :
  Get key m = Ok (value, ok, m') →
  ∃ i sh, getShard m key = Ok i ∧ 0 ≤ i ∧
          shards m !! Z.to_nat i = Some sh ∧ writer (mu sh) = false ∧
          (value, ok) = map_index (data sh) key ∧ m' = m.
Proof.
  unfold Get. intros (i & Hget & Hrest)%bind_Ok_inv.
  apply bind_Ok_inv in Hrest as (m1 & HL & Hrest).
  destruct (read_shared_inv i m m1 HL) as (sh & Hi & Hlook & Hw).
  destruct (read_shared m i sh Hi Hlook Hw) as (m1' & sh1 & HL' & HI & HD & HU).
  rewrite HL in HL'. injection HL' as <-.
  rewrite HI, bind_Ok in Hrest.
  destruct (map_index (data sh1) key) as [v b] eqn:Hidx.
  rewrite HU, bind_Ok in Hrest. injection Hrest as <- <- <-.
  exists i, sh. by rewrite <- HD, Hidx.
Qed.

Lemma Get_shared m key (i : Z) sh :
  getShard m key = Ok i → 0 ≤ i →
  shards m !! Z.to_nat i = Some sh → writer (mu sh) = false →
  Get key m = Ok (map_index (data sh) key, m).
Proof.
  intros Hget Hi Hlook Hw. unfold Get.
  destruct (read_shared m i sh Hi Hlook Hw) as (m1 & sh1 & HL & HI & HD & HU).
  rewrite Hget, bind_Ok, HL, bind_Ok, HI, bind_Ok, HD.
  destruct (map_index (data sh) key) as [v b]. by rewrite HU.
Qed.


Lemma read_body_inv {A} (F : A → Z → option (gmap K V) → A) (i : Z) m
    (acc : A) (s' : ShardedMap * A) :
  (m ← on_mu RLock i m;
   sh ← index (shards m) i;
   let acc := F acc i (data sh) in
   m ← on_mu RUnlock i m;
   Ok (m, acc)) = Ok s' →
  s'.1 = m.
Proof.
  intros (m1 & HL & Hrest)%bind_Ok_inv.
  destruct (read_shared_inv i m m1 HL) as (sh & Hi & Hlook & Hw).
  destruct (read_shared m i sh Hi Hlook Hw) as (m1' & sh1 & HL' & HI & HD & HU).
  rewrite HL in HL'. injection HL' as <-.
  rewrite HI, bind_Ok in Hrest. cbn zeta in Hrest.
  rewrite HU, bind_Ok in Hrest. by injection Hrest as <-.
Qed.

Lemma read_loop_inv {A} (F : A → Z → option (gmap K V) → A) (idxs : list Z)
    m (acc : A) (s' : ShardedMap * A) :
  for_each idxs
    (λ i '(m, acc),
       m ← on_mu RLock i m;
       sh ← index (shards m) i;
       let acc := F acc i (data sh) in
       m ← on_mu RUnlock i m;
       Ok (m, acc)) (m, acc) = Ok s' →
  s'.1 = m.
Proof.
  apply (for_each_invariant (λ s, s.1 = m)); [|done].
  intros i [m1 acc1] s2 Hm1 Hbody. simpl in Hm1. subst m1.
  by apply (read_body_inv F i m acc1).
Qed.

(** X2. [Keys] never changes the store: on any store, well-formed or not,
    whatever the iteration order, when it returns every shard, map and lock
    is as it was. *)
Theorem Keys_read_only order m keys m' :
  Keys order m = Ok (keys, m') → m' = m.
Proof.
  unfold Keys, for_lt. intros ([m1 total] & Hcount & Hrest)%bind_Ok_inv.
  apply (read_loop_inv (λ acc _ d, acc + map_len d)) in Hcount.
  simpl in Hcount. subst m1.
  apply bind_Ok_inv in Hrest as ([m2 ks] & Hcollect & Hret).
  apply (read_loop_inv (λ acc i d, acc ++ range_keys order i d)) in Hcollect.
  simpl in Hcollect. subst m2.
  by injection Hret as _ <-.
Qed.

Lemma Set_Ok_inv m key value m' :
  Set_ key value m = Ok m' →
  ∃ i sh g, getShard m key = Ok i ∧ 0 ≤ i ∧
            shards m !! Z.to_nat i = Some sh ∧ mu sh = unlocked ∧
            data sh = Some g ∧
            m' = with_data i (Some (<[key := value]> g)) m.
Proof.
  intros HSet0. pose proof HSet0 as Hrest. unfold Set_ in Hrest.
  apply bind_Ok_inv in Hrest as (i & Hget & Hrest).
  apply bind_Ok_inv in Hrest as (m1 & HL & Hrest).
  apply on_mu_inv in HL as (sh & rw & Hi & Hlook & [Hmu ->]%Lock_inv & ->).
  assert (Hlt : (Z.to_nat i < length (shards m))%nat)
    by (by eapply lookup_lt_Some).
  simpl in Hrest.
  rewrite (index_lookup _ i {| mu := {| writer := true; readers := 0 |};
                               data := data sh |}) in Hrest
    by (done || by apply list_lookup_insert_eq).
  rewrite bind_Ok in Hrest. simpl in Hrest.
  destruct (data sh) as [g|] eqn:Hg; [|done].
  exists i, sh, g. split_and!; try done.
  rewrite (Set_wf m key value i sh g Hi Hget Hlook Hmu Hg) in HSet0.
  by injection HSet0.
Qed.

(** X3. [Set] returns exactly when the key's shard exists, its lock is free
    and its map is allocated; the store it leaves differs from the one it
    found in that one shard's map only, by the entry of [key]. *)
Theorem Set_returns_iff m key value m' :
  Set_ key value m = Ok m' ↔
  ∃ i sh g, getShard m key = Ok i ∧ 0 ≤ i ∧
            shards m !! Z.to_nat i = Some sh ∧ mu sh = unlocked ∧
            data sh = Some g ∧
            m' = with_data i (Some (<[key := value]> g)) m.
Proof.
  split; [apply Set_Ok_inv|].
  intros (i & sh & g & Hget & Hi & Hlook & Hmu & Hg & ->).
  by apply (Set_wf m key value i sh g).
Qed.

Lemma Delete_Ok_inv m key m' :
  Delete key m = Ok m' →
  ∃ i sh, getShard m key = Ok i ∧ 0 ≤ i ∧
          shards m !! Z.to_nat i = Some sh ∧ mu sh = unlocked ∧
          m' = with_data i (map_delete (data sh) key) m.
Proof.
  intros HDel. pose proof HDel as HDel0. unfold Delete in HDel.
  apply bind_Ok_inv in HDel as (i & Hget & Hrest).
  apply bind_Ok_inv in Hrest as (m1 & HL & _).
  apply on_mu_inv in HL as (sh & rw & Hi & Hlook & [Hmu _]%Lock_inv & _).
  exists i, sh. split_and!; try done.
  rewrite (Delete_wf m key i sh Hi Hget Hlook Hmu) in HDel0.
  by injection HDel0.
Qed.

(** X4. [Delete] returns exactly when the key's shard exists and its lock
    is free, also where the map is nil or has no such key; the store it
    leaves differs in that one shard's map only, by the entry of [key]. *)
Theorem Delete_returns_iff m key m' :
  Delete key m = Ok m' ↔
  ∃ i sh, getShard m key = Ok i ∧ 0 ≤ i ∧
          shards m !! Z.to_nat i = Some sh ∧ mu sh = unlocked ∧
          m' = with_data i (map_delete (data sh) key) m.
Proof.
  split; [apply Delete_Ok_inv|].
  intros (i & sh & Hget & Hi & Hlook & Hmu & ->).
  by apply (Delete_wf m key i sh).
Qed.

(** ** Writes, one after the other *)

Lemma model_step_commute k1 k2 o1 o2 g :
  writes k1 o1 → writes k2 o2 → k1 ≠ k2 →
  model_step (model_step g o1) o2 = model_step (model_step g o2) o1.
Proof.
  destruct o1 as [|k1' v1|k1'|], o2 as [|k2' v2|k2'|]; simpl; try done;
    intros -> -> Hne.
  - by apply insert_insert_ne.
  - by apply delete_insert_ne.
  - symmetry. by apply delete_insert_ne.
  - apply delete_delete.
Qed.

(** A [Set] or a [Delete] on a shard whose lock is free and whose map is
    allocated. *)
Lemma exec_write order m o key (i : Z) sh g :
  writes key o → 0 ≤ i → getShard m key = Ok i →
  shards m !! Z.to_nat i = Some sh → mu sh = unlocked → data sh = Some g →
  exec order o m = Ok (RDone, with_data i (Some (model_step g o)) m).
Proof.
  intros Ho Hi Hget Hlook Hmu Hg.
  destruct o as [|k v|k|]; simpl in *; try done; subst k.
  - by rewrite (Set_wf m key v i sh g).
  - rewrite (Delete_wf m key i sh) by done. by rewrite Hg.
Qed.

Lemma with_data_commute m (i j : Z) d d' :
  0 ≤ i → 0 ≤ j → i ≠ j →
  with_data j d' (with_data i d m) = with_data i d (with_data j d' m).
Proof.
  intros Hi Hj Hne. unfold with_data. simpl. f_equal.
  apply list_insert_insert_ne. lia.
Qed.

(** X5. For key types on which [==] is identity (on [float64] a
    [Delete(NaN)] removes nothing).
    On a well-formed store, a [Set] followed by a [Delete] of the same
    key leaves the store that the [Delete] alone leaves, and that is the
    store the calls started from when the key was absent; and a [Set] after
    a [Delete] leaves what the [Set] alone leaves. *)
Theorem Set_Delete_cancel m key value :
  wf m →
  ∃ m1 m2, Set_ key value m = Ok m1 ∧ Delete key m1 = Ok m2 ∧
           Delete key m = Ok m2 ∧ Set_ key value m2 = Ok m1 ∧
           ((∃ v, Get key m = Ok (v, false, m)) → m2 = m).
Proof.
  intros Hwf.
  destruct (wf_route m key Hwf) as (i & sh & g & Hget & Hi & Hlook & Hmu & Hg).
  set (m1 := with_data i (Some (<[key := value]> g)) m).
  set (m2 := with_data i (Some (delete key g)) m).
  assert (getShard m1 key = Ok i) as Hget1
    by (by rewrite <- (getShard_numShards m)).
  assert (getShard m2 key = Ok i) as Hget2
    by (by rewrite <- (getShard_numShards m)).
  pose proof (with_data_lookup m i sh (Some (<[key := value]> g)) Hlook) as Hlook1.
  pose proof (with_data_lookup m i sh (Some (delete key g)) Hlook) as Hlook2.
  exists m1, m2. split_and!.
  - by apply (Set_wf m key value i sh g); try lia.
  - rewrite (Delete_wf m1 key i _ (proj1 Hi) Hget1 Hlook1) by done.
    simpl. unfold m1, m2. by rewrite with_data_twice, delete_insert_eq.
  - rewrite (Delete_wf m key i sh) by (done || lia). by rewrite Hg.
  - rewrite (Set_wf m2 key value i _ (delete key g) (proj1 Hi) Hget2 Hlook2)
      by done.
    unfold m1, m2. by rewrite with_data_twice, insert_delete_eq.
  - intros [v HGet].
    apply Get_Ok_inv in HGet as (i' & sh' & Hget' & _ & Hlook' & _ & Hidx & _).
    rewrite Hget in Hget'. injection Hget' as <-.
    rewrite Hlook in Hlook'. injection Hlook' as <-.
    unfold map_index in Hidx. rewrite Hg in Hidx. simpl in Hidx.
    destruct (g !! key) as [v'|] eqn:Hk; [done|].
    unfold m2. rewrite delete_id by done. by apply (with_data_id m i sh).
Qed.

(** X6. On a well-formed store, two writes ([Set] or [Delete]) to
    different keys return in either order and leave the same store, whether
    the keys share a shard or not. *)
Theorem writes_commute order m o1 o2 k1 k2 :
  wf m → writes k1 o1 → writes k2 o2 → k1 ≠ k2 →
  ∃ m', run order [o1; o2] m = Ok ([RDone; RDone], m') ∧
        run order [o2; o1] m = Ok ([RDone; RDone], m').
Proof.
  intros Hwf Ho1 Ho2 Hne.
  destruct (wf_route m k1 Hwf) as (i1 & sh1 & g1 & Hget1 & Hi1 & Hlook1 & Hmu1 & Hg1).
  destruct (wf_route m k2 Hwf) as (i2 & sh2 & g2 & Hget2 & Hi2 & Hlook2 & Hmu2 & Hg2).
  pose proof (exec_write order m o1 k1 i1 sh1 g1 Ho1 (proj1 Hi1) Hget1 Hlook1
                Hmu1 Hg1) as He1.
  pose proof (exec_write order m o2 k2 i2 sh2 g2 Ho2 (proj1 Hi2) Hget2 Hlook2
                Hmu2 Hg2) as He2.
  set (m1 := with_data i1 (Some (model_step g1 o1)) m) in *.
  set (m2 := with_data i2 (Some (model_step g2 o2)) m) in *.
  assert (getShard m1 k2 = Ok i2) as Hget12
    by (by rewrite <- (getShard_numShards m)).
  assert (getShard m2 k1 = Ok i1) as Hget21
    by (by rewrite <- (getShard_numShards m)).
  destruct (decide (i1 = i2)) as [<-|Hi12].
  - rewrite Hlook1 in Hlook2. injection Hlook2 as <-.
    rewrite Hg1 in Hg2. injection Hg2 as <-.
    pose proof (with_data_lookup m i1 sh1 (Some (model_step g1 o1)) Hlook1) as HL1.
    pose proof (with_data_lookup m i1 sh1 (Some (model_step g1 o2)) Hlook1) as HL2.
    pose proof (exec_write order m1 o2 k2 i1 _ _ Ho2 (proj1 Hi1) Hget12 HL1
                  eq_refl eq_refl) as He12.
    pose proof (exec_write order m2 o1 k1 i1 _ _ Ho1 (proj1 Hi1) Hget21 HL2
                  eq_refl eq_refl) as He21.
    eexists. simpl. rewrite He1, He2. simpl. rewrite He12, He21. simpl.
    split; [done|]. unfold m1, m2. rewrite !with_data_twice.
    by rewrite (model_step_commute k1 k2 o1 o2).
  - assert (shards m1 !! Z.to_nat i2 = Some sh2) as HL1.
    { simpl. rewrite list_lookup_insert_ne by lia. done. }
    assert (shards m2 !! Z.to_nat i1 = Some sh1) as HL2.
    { simpl. rewrite list_lookup_insert_ne by lia. done. }
    pose proof (exec_write order m1 o2 k2 i2 sh2 g2 Ho2 (proj1 Hi2) Hget12 HL1
                  Hmu2 Hg2) as He12.
    pose proof (exec_write order m2 o1 k1 i1 sh1 g1 Ho1 (proj1 Hi1) Hget21 HL2
                  Hmu1 Hg1) as He21.
    eexists. simpl. rewrite He1, He2. simpl. rewrite He12, He21. simpl.
    split; [done|]. unfold m1, m2.
    by rewrite (with_data_commute m i1 i2) by lia.
Qed.

(** ** What a write leaves alone *)

Lemma with_data_frame m (i : Z) sh d key :
  0 ≤ i → shards m !! Z.to_nat i = Some sh → mu sh = unlocked →
  (∀ k', k' ≠ key → map_index d k' = map_index (data sh) k') →
  (∀ j, mu <$> shards (with_data i d m) !! j = mu <$> shards m !! j) ∧
  (∀ k' v ok, k' ≠ key →
     Get k' (with_data i d m) = Ok (v, ok, with_data i d m) ↔
     Get k' m = Ok (v, ok, m)).
Proof.
  intros Hi Hlook Hmu Hd.
  assert (Hlt : (Z.to_nat i < length (shards m))%nat)
    by (by eapply lookup_lt_Some).
  split.
  - intros j. simpl. destruct (decide (j = Z.to_nat i)) as [->|Hne].
    + rewrite list_lookup_insert_eq, Hlook by done. simpl. by rewrite Hmu.
    + by rewrite list_lookup_insert_ne.
  - intros k' v ok Hk'. split.
    + intros (j & shj & Hget & Hj & Hlookj & Hw & Hidx & _)%Get_Ok_inv.
      rewrite <- (getShard_numShards m (with_data i d m)) in Hget by done.
      rewrite Hidx. destruct (decide (j = i)) as [->|Hne].
      * simpl in Hlookj. rewrite list_lookup_insert_eq in Hlookj by done.
        injection Hlookj as <-. simpl. rewrite Hd by done.
        apply (Get_shared m k' i sh); try done. by rewrite Hmu.
      * simpl in Hlookj. rewrite list_lookup_insert_ne in Hlookj by lia.
        by apply (Get_shared m k' j shj).
    + intros (j & shj & Hget & Hj & Hlookj & Hw & Hidx & _)%Get_Ok_inv.
      rewrite (getShard_numShards m (with_data i d m)) in Hget by done.
      rewrite Hidx. destruct (decide (j = i)) as [->|Hne].
      * rewrite Hlook in Hlookj. injection Hlookj as <-.
        rewrite <- Hd by done.
        apply (Get_shared (with_data i d m) k' i {| mu := unlocked; data := d |});
          try done.
        simpl. by apply list_lookup_insert_eq.
      * apply (Get_shared (with_data i d m) k' j shj); try done.
        simpl. by rewrite list_lookup_insert_ne by lia.
Qed.

(** X7. A [Set] or a [Delete] that returns, on any store, leaves the shard
    count, the number of shards and every lock as it found them, and does
    not change what [Get] answers for any other key. *)
Theorem write_frame m o r m' key :
  step m o r m' → writes key o →
  numShards m' = numShards m ∧
  length (shards m') = length (shards m) ∧
  (∀ j, mu <$> shards m' !! j = mu <$> shards m !! j) ∧
  (∀ k' v ok, k' ≠ key →
     Get k' m' = Ok (v, ok, m') ↔ Get k' m = Ok (v, ok, m)).
Proof.
  intros Hstep Ho.
  destruct Hstep as [k m v ok m' HGet|k v m m' HSet|k m m' HDel
                    |order m ks m' Hord HKeys]; simpl in Ho; try done; subst k.
  - apply Set_Ok_inv in HSet as (i & sh & g & Hget & Hi & Hlook & Hmu & Hg & ->).
    split; [done|]. split; [by simpl; rewrite length_insert|].
    apply (with_data_frame m i sh _ key); try done.
    intros k' Hk'. unfold map_index. rewrite Hg. simpl.
    by rewrite lookup_insert_ne.
  - apply Delete_Ok_inv in HDel as (i & sh & Hget & Hi & Hlook & Hmu & ->).
    split; [done|]. split; [by simpl; rewrite length_insert|].
    apply (with_data_frame m i sh _ key); try done.
    intros k' Hk'. unfold map_index, map_delete.
    destruct (data sh) as [g|]; simpl; [|done].
    by rewrite lookup_delete_ne.
Qed.

(** ** The store as one map *)

(** X8. For key types on which [==] is identity (on [float64] the keys 0
    and -0 are one key of a Go map and two of the store).
    A store made by [NewShardedMap(n)] behaves as one plain map: every
    result of a sequence of calls is the result the same calls have on a
    single [map[K]V] that starts empty ([Keys] up to the order), and after
    them every [Get] answers what that map holds and [Keys] lists its keys. *)
Theorem behaves_as_one_map (n : Z) m0 os rs m :
  is_int n → NewShardedMap n = Ok m0 → steps m0 os rs m →
  model_resps ∅ os rs ∧
  (∀ key, Get key m = Ok (map_index (Some (model_run os ∅)) key, m)) ∧
  (∀ order, valid_order order →
     ∃ keys, Keys order m = Ok (keys, m) ∧
             keys ≡ₚ elements (dom (model_run os ∅))).
Proof.
  intros Hint Hnew Hsteps.
  destruct (steps_inv m0 ∅ os rs m) as [Hinv Hresps];
    [by apply (inv_new n)|done|].
  split_and!; [done| |].
  - intros key. by apply Get_inv.
  - intros order Hord.
    destruct (Keys_inv order m _ Hord Hinv) as (ks & HKeys & _ & _ & Hperm).
    by exists ks.
Qed.

(** ** The capacity that [Keys] computes *)

Lemma count_fold order m (l : list nat) (acc : Z) :
  valid_order order →
  foldl (λ acc i, acc + map_len (shards m !! i ≫= data)) acc l
  = acc + Z.of_nat (length (l ≫= shard_keys order m)).
Proof.
  intros Hord. revert acc. induction l as [|i l IH]; intros acc; csimpl; [lia|].
  rewrite IH, length_app. unfold shard_keys at 2, range_keys, map_len.
  destruct (shards m !! i ≫= data) as [g|]; simpl; [|lia].
  rewrite (Hord (Z.of_nat i) g).
  change (length (elements (dom g))) with (size (dom g)).
  rewrite size_dom. lia.
Qed.

(** X9. On a well-formed store the capacity that the first loop of [Keys]
    adds up is exactly the number of keys that the second loop appends, so
    the slice is never regrown. *)
Theorem Keys_capacity_exact order m :
  wf m → valid_order order →
  ∃ keys total, count_pass m = Ok (m, total) ∧
                Keys order m = Ok (keys, m) ∧
                total = Z.of_nat (length keys).
Proof.
  intros Hwf Hord. pose proof Hwf as (Hn & Hlen & Hsh).
  rewrite Forall_lookup in Hsh.
  exists (all_keys order m). eexists. split_and!.
  - unfold count_pass, for_lt, indices. rewrite <- Hlen, Nat2Z.id.
    apply (read_pass (λ acc _ d, acc + map_len d));
      [intros i sh Hi; by destruct (Hsh i sh Hi)|lia].
  - by apply Keys_wf.
  - by rewrite (count_fold order), Z.add_0_l.
Qed.

(** ** A store that [NewShardedMap] did not make *)

(** X10. On the zero value of [ShardedMap] (shard count 0), [Get], [Set]
    and [Delete] panic on the remainder by zero for every key, and [Keys]
    returns the empty sequence. *)
Theorem zero_value_store order m key value :
  numShards m = 0 →
  Get key m = Panic "integer divide by zero" ∧
  Set_ key value m = Panic "integer divide by zero" ∧
  Delete key m = Panic "integer divide by zero" ∧
  Keys order m = Ok ([], m).
Proof.
  intros Hn.
  assert (getShard m key = Panic "integer divide by zero") as Hget.
  { unfold getShard. by rewrite Hn. }
  unfold Get, Set_, Delete. rewrite Hget. split_and!; [done..|].
  unfold Keys, for_lt, indices. rewrite Hn. simpl. by rewrite Hn.
Qed.

End MoreProperties.

(** ** The pre-populate loop of the benchmarks *)

Lemma elem_of_indices (n j : Z) : j ∈ indices n ↔ 0 ≤ j < n.
Proof.
  unfold indices. rewrite list_elem_of_fmap. split.
  - intros (i & -> & Hi%elem_of_seq). lia.
  - intros Hj. exists (Z.to_nat j). split; [lia|]. apply elem_of_seq. lia.
Qed.

Lemma NoDup_indices (n : Z) : NoDup (indices n).
Proof. unfold indices. apply NoDup_fmap; [apply _|apply NoDup_seq]. Qed.

Lemma length_indices (n : Z) : length (indices n) = Z.to_nat n.
Proof. unfold indices. by rewrite length_fmap, length_seq. Qed.

Lemma foldl_insert_lookup (idxs : list Z) (g : gmap Z Z) (j : Z) :
  foldl (λ g i, <[i := i]> g) g idxs !! j
  = if decide (j ∈ idxs) then Some j else g !! j.
Proof.
  revert g. induction idxs as [|i idxs IH]; intros g; cbn [foldl].
  - rewrite decide_False; [done|]. apply not_elem_of_nil.
  - rewrite IH. destruct (decide (j ∈ idxs)) as [Hin|Hnin].
    + rewrite decide_True; [done|]. by apply list_elem_of_further.
    + destruct (decide (j = i)) as [->|Hne].
      * rewrite decide_True by apply list_elem_of_here.
        apply lookup_insert_eq.
      * rewrite decide_False; [by apply lookup_insert_ne|].
        intros [?|?]%elem_of_cons; done.
Qed.

Lemma populate_loop (idxs : list Z) (m : ShardedMap (K:=Z) (V:=Z))
    (g : gmap Z Z) :
  inv m g →
  ∃ m', for_each idxs (λ i m, Set_ i i m) m = Ok m' ∧
        inv m' (foldl (λ g i, <[i := i]> g) g idxs).
Proof.
  revert m g. induction idxs as [|i idxs IH]; intros m g Hinv; simpl.
  - by exists m.
  - destruct (Set_inv m g i i Hinv) as (m1 & HSet & Hinv1).
    rewrite HSet, bind_Ok. by apply IH.
Qed.

(** X11. After the loop [for i := 0; i < n; i++ { m.Set(i, i) }] on a
    fresh store of any shard count, as the read benchmark runs it, the loop
    has returned, [Get(j)] answers [(j, true)] exactly for 0 <= j < n, so
    [Get(i % n)] finds its key for every i >= 0, and [Keys] has n keys. *)
Theorem populate_spec (c n : Z) (m0 : ShardedMap (K:=Z) (V:=Z)) :
  is_int c → NewShardedMap c = Ok m0 → 0 ≤ n →
  ∃ m, populate n m0 = Ok m ∧
    (∀ j, Get j m = Ok (if bool_decide (0 ≤ j < n) then (j, true)
                        else (0, false), m)) ∧
    (∀ i, 0 ≤ i → 0 < n → Get (Z.rem i n) m = Ok (Z.rem i n, true, m)) ∧
    (∀ order, valid_order order →
       ∃ keys, Keys order m = Ok (keys, m) ∧ Z.of_nat (length keys) = n).
Proof.
  intros Hint Hnew Hn.
  destruct (populate_loop (indices n) m0 ∅ (inv_new c m0 Hint Hnew))
    as (m & Hpop & Hinv).
  assert (∀ j, Get j m = Ok (if bool_decide (0 ≤ j < n) then (j, true)
                             else (0, false), m)) as HGet.
  { intros j. rewrite (Get_inv m _ j Hinv). unfold map_index. simpl.
    rewrite foldl_insert_lookup, lookup_empty.
    destruct (decide (j ∈ indices n)) as [Hj|Hj]; rewrite elem_of_indices in Hj.
    - by rewrite bool_decide_eq_true_2.
    - by rewrite bool_decide_eq_false_2. }
  exists m. split_and!; [done|done| |].
  - intros i Hi Hpos. rewrite HGet.
    pose proof (Z.rem_bound_pos i n Hi Hpos).
    by rewrite bool_decide_eq_true_2.
  - intros order Hord.
    destruct (Keys_inv order m _ Hord Hinv) as (ks & HKeys & _ & _ & Hperm).
    exists ks. split; [done|].
    rewrite Hperm.
    rewrite (Permutation_length (l' := indices n)).
    { rewrite length_indices. lia. }
    apply NoDup_Permutation; [apply NoDup_elements|apply NoDup_indices|].
    intros j. rewrite elem_of_elements, elem_of_dom, foldl_insert_lookup.
    rewrite lookup_empty. destruct (decide (j ∈ indices n)); [done|].
    split; [by intros []|done].
Qed.

(** ** The aggregator's options *)

Section AggregatorProperties.
Context {Logger Func : Type}.
Context (default_logger : Logger) (fetchProfile fetchOrders : Func).
Implicit Types (ua : Aggregator.UserAggregator (Logger:=Logger) (Func:=Func)).
Implicit Types (opt : Aggregator.Option (Logger:=Logger) (Func:=Func)).
Implicit Types (opts : list (Aggregator.Option (Logger:=Logger) (Func:=Func))).

Lemma apply_loggers_timeout opts ua :
  Forall Aggregator.sets_logger opts →
  Aggregator.timeout (fold_left (λ agg opt, opt agg) opts ua)
  = Aggregator.timeout ua.
Proof.
  intros Hopts. revert ua.
  induction Hopts as [|opt opts [l ->] _ IH]; intros ua; simpl; [done|].
  by rewrite IH.
Qed.

Lemma apply_timeouts_logger opts ua :
  Forall Aggregator.sets_timeout opts →
  Aggregator.logger (fold_left (λ agg opt, opt agg) opts ua)
  = Aggregator.logger ua.
Proof.
  intros Hopts. revert ua.
  induction Hopts as [|opt opts [t ->] _ IH]; intros ua; simpl; [done|].
  by rewrite IH.
Qed.

Lemma apply_offered_funcs opts ua :
  Forall Aggregator.offered opts →
  Aggregator.profileFunc (fold_left (λ agg opt, opt agg) opts ua)
  = Aggregator.profileFunc ua ∧
  Aggregator.orderFunc (fold_left (λ agg opt, opt agg) opts ua)
  = Aggregator.orderFunc ua.
Proof.
  intros Hopts. revert ua.
  induction Hopts as [|opt opts [[t ->]|[l ->]] _ IH]; intros ua; simpl;
    [done|..]; by rewrite !(proj1 (IH _)), !(proj2 (IH _)).
Qed.

(** X12. Options are applied in the order given and the last one of a kind
    wins: whatever options come first, after [WithTimeout(t)] followed only
    by [WithLogger] options the timeout is [t], and after [WithLogger(l)]
    followed only by [WithTimeout] options the logger is [l]. *)
Theorem New_last_option_wins opts rest (t : Z) (l : Logger) :
  (Forall Aggregator.sets_logger rest →
   Aggregator.timeout
     (Aggregator.New default_logger fetchProfile fetchOrders
        (opts ++ Aggregator.WithTimeout t :: rest)) = t) ∧
  (Forall Aggregator.sets_timeout rest →
   Aggregator.logger
     (Aggregator.New default_logger fetchProfile fetchOrders
        (opts ++ Aggregator.WithLogger l :: rest)) = l).
Proof.
  unfold Aggregator.New. split; intros Hrest; rewrite fold_left_app; simpl.
  - by rewrite apply_loggers_timeout.
  - by rewrite apply_timeouts_logger.
Qed.

(** X13. [New] starts from the defaults and the offered options touch only
    their own field: with options built from [WithTimeout] and [WithLogger]
    the two fetch functions are the package's own; with no [WithTimeout]
    among them the timeout is two seconds, and with no [WithLogger] the
    logger is the default one. *)
Theorem New_defaults opts :
  Forall Aggregator.offered opts →
  let agg := Aggregator.New default_logger fetchProfile fetchOrders opts in
  Aggregator.profileFunc agg = fetchProfile ∧
  Aggregator.orderFunc agg = fetchOrders ∧
  (Forall Aggregator.sets_logger opts →
   Aggregator.timeout agg = 2 * Aggregator.Second) ∧
  (Forall Aggregator.sets_timeout opts →
   Aggregator.logger agg = default_logger).
Proof.
  intros Hopts agg. unfold agg, Aggregator.New.
  destruct (apply_offered_funcs opts
              {| Aggregator.timeout := 2 * Aggregator.Second;
                 Aggregator.logger := default_logger;
                 Aggregator.profileFunc := fetchProfile;
                 Aggregator.orderFunc := fetchOrders |} Hopts) as [Hp Ho].
  split_and!; [done|done| |].
  - intros Hl. by rewrite apply_loggers_timeout.
  - intros Ht. by rewrite apply_timeouts_logger.
Qed.

End AggregatorProperties.

(** * Key types on which [==] is identity: the embeddings agree *)

Lemma outcome_rel_bind {A A' B B' : Type} (R : A' → A → Prop)
    (S : B' → B → Prop) (c' : outcome A') (c : outcome A)
    (f' : A' → outcome B') (f : A → outcome B) :
  outcome_rel R c' c →
  (∀ a' a, R a' a → outcome_rel S (f' a') (f a)) →
  outcome_rel S (c' ≫= f') (c ≫= f).
Proof. intros [a' a Ha|msg|] Hf; [by apply Hf|constructor..]. Qed.

Lemma outcome_rel_for_each {S' S : Type} (R : S' → S → Prop)
    (body' : Z → S' → outcome S') (body : Z → S → outcome S)
    (idxs : list Z) (s' : S') (s : S) :
  (∀ i a' a, R a' a → outcome_rel R (body' i a') (body i a)) →
  R s' s → outcome_rel R (for_each idxs body' s') (for_each idxs body s).
Proof.
  intros Hbody. revert s' s.
  induction idxs as [|i idxs IH]; intros s' s Hs; simpl; [by constructor|].
  eapply outcome_rel_bind; [by apply Hbody|]. intros a' a Ha. by apply IH.
Qed.

Section Agreement.
Context {K : Type} `{Countable K} `{!KeyFormat K}.
Context {V : Type} `{!ZeroValue V}.
#[local] Existing Instance identity_eq.
Implicit Types (d : list (K * V)) (g : gmap K V) (k key : K) (value : V).
Implicit Types (m : ShardedMap (K:=K) (V:=V)).
Implicit Types (am : AnyKey.ShardedMap (K:=K) (V:=V)).
Implicit Types (ash : AnyKey.shard (K:=K) (V:=V)) (sh : shard (K:=K) (V:=V)).

(** ** A Go map is a [gmap] *)

Lemma go_eq_identity k k' : go_eq k k' = bool_decide (k = k').
Proof. reflexivity. Qed.

Lemma lookup_cons k0 (v0 : V) d k :
  AnyKey.lookup ((k0, v0) :: d) k
  = if decide (k0 = k) then Some v0 else AnyKey.lookup d k.
Proof.
  cbn [AnyKey.lookup]. rewrite go_eq_identity.
  destruct (decide (k0 = k)) as [Heq|Hne].
  - by rewrite bool_decide_eq_true_2.
  - by rewrite bool_decide_eq_false_2.
Qed.

Lemma assign_cons k0 (v0 : V) d k value :
  AnyKey.assign ((k0, v0) :: d) k value
  = if decide (k0 = k) then (k, value) :: d
    else (k0, v0) :: AnyKey.assign d k value.
Proof.
  cbn [AnyKey.assign]. rewrite go_eq_identity.
  destruct (decide (k0 = k)) as [Heq|Hne].
  - by rewrite bool_decide_eq_true_2.
  - by rewrite bool_decide_eq_false_2.
Qed.

Lemma remove_cons k0 (v0 : V) d k :
  AnyKey.remove ((k0, v0) :: d) k
  = if decide (k0 = k) then AnyKey.remove d k
    else (k0, v0) :: AnyKey.remove d k.
Proof.
  cbn [AnyKey.remove]. rewrite go_eq_identity.
  destruct (decide (k0 = k)) as [Heq|Hne].
  - by rewrite bool_decide_eq_true_2.
  - by rewrite bool_decide_eq_false_2.
Qed.

Lemma lookup_elem_of d k : is_Some (AnyKey.lookup d k) ↔ k ∈ d.*1.
Proof.
  induction d as [|[k0 v0] d IH].
  - split; [by intros [? [=]]|by intros ?%elem_of_nil].
  - rewrite lookup_cons, fmap_cons, elem_of_cons. cbn [fst].
    destruct (decide (k0 = k)) as [->|Hne].
    + split; [by left|by eexists].
    + rewrite IH. split; [by right|]. intros [->|Hin]; done.
Qed.

Lemma lookup_assign d k value k' :
  AnyKey.lookup (AnyKey.assign d k value) k'
  = if decide (k = k') then Some value else AnyKey.lookup d k'.
Proof.
  induction d as [|[k0 v0] d IH].
  - cbn [AnyKey.assign]. rewrite lookup_cons. by case_decide.
  - rewrite assign_cons. destruct (decide (k0 = k)) as [->|Hne].
    + rewrite !lookup_cons. by case_decide.
    + rewrite !lookup_cons, IH.
      destruct (decide (k0 = k')) as [->|Hne']; [|done].
      by rewrite decide_False by congruence.
Qed.

Lemma assign_keys_NoDup d k value :
  NoDup d.*1 → NoDup (AnyKey.assign d k value).*1 ∧
  ∀ k', k' ∈ (AnyKey.assign d k value).*1 ↔ k' = k ∨ k' ∈ d.*1.
Proof.
  induction d as [|[k0 v0] d IH]; intros Hnd.
  - cbn [AnyKey.assign]. rewrite fmap_cons, fmap_nil. cbn [fst]. split.
    + apply NoDup_singleton.
    + intros k'. rewrite list_elem_of_singleton. split; [by left|].
      intros [?|?%elem_of_nil]; done.
  - rewrite fmap_cons in Hnd. cbn [fst] in Hnd.
    apply NoDup_cons in Hnd as [Hnin Hnd].
    rewrite assign_cons. destruct (decide (k0 = k)) as [->|Hne].
    + rewrite !fmap_cons. cbn [fst]. split; [by apply NoDup_cons|].
      intros k'. rewrite elem_of_cons. split; [by right|].
      intros [?|[?|?]]; [by left|by left|by right].
    + destruct (IH Hnd) as [Hnd' Hmem]. rewrite !fmap_cons. cbn [fst]. split.
      * apply NoDup_cons. split; [|done].
        rewrite Hmem. intros [?|?]; done.
      * intros k'. rewrite !elem_of_cons, Hmem. split.
        -- intros [?|[?|?]]; auto.
        -- intros [?|[?|?]]; auto.
Qed.

Lemma lookup_remove d k k' :
  AnyKey.lookup (AnyKey.remove d k) k'
  = if decide (k = k') then None else AnyKey.lookup d k'.
Proof.
  induction d as [|[k0 v0] d IH].
  - cbn [AnyKey.remove AnyKey.lookup]. by case_decide.
  - rewrite remove_cons. destruct (decide (k0 = k)) as [->|Hne].
    + rewrite IH, lookup_cons. destruct (decide (k = k')); done.
    + rewrite !lookup_cons, IH.
      destruct (decide (k0 = k')) as [->|Hne']; [|done].
      by rewrite decide_False by congruence.
Qed.

Lemma remove_keys_NoDup d k : NoDup d.*1 → NoDup (AnyKey.remove d k).*1.
Proof.
  induction d as [|[k0 v0] d IH]; intros Hnd; [done|].
  rewrite fmap_cons in Hnd. cbn [fst] in Hnd.
  apply NoDup_cons in Hnd as [Hnin Hnd].
  rewrite remove_cons. destruct (decide (k0 = k)) as [->|Hne]; [by apply IH|].
  rewrite fmap_cons. cbn [fst]. apply NoDup_cons. split; [|by apply IH].
  intros Hin. apply Hnin.
  apply lookup_elem_of in Hin. rewrite lookup_remove in Hin.
  apply lookup_elem_of. by destruct (decide (k = k0)); [destruct Hin|].
Qed.

Lemma same_map_empty : same_map (K:=K) (V:=V) [] ∅.
Proof. split; [constructor|]. intros k. by rewrite lookup_empty. Qed.

Lemma same_map_assign d g k value :
  same_map d g → same_map (AnyKey.assign d k value) (<[k := value]> g).
Proof.
  intros [Hnd Hlook]. split.
  - by apply assign_keys_NoDup.
  - intros k'. change (AnyKey.lookup (AnyKey.assign d k value) k'
                       = <[k := value]> g !! k').
    rewrite lookup_assign, lookup_insert. case_decide; [done|apply Hlook].
Qed.

Lemma same_map_remove d g k :
  same_map d g → same_map (AnyKey.remove d k) (delete k g).
Proof.
  intros [Hnd Hlook]. split.
  - by apply remove_keys_NoDup.
  - intros k'. change (AnyKey.lookup (AnyKey.remove d k) k'
                       = delete k g !! k').
    rewrite lookup_remove, lookup_delete. case_decide; [done|apply Hlook].
Qed.

Lemma same_map_keys d g : same_map d g → d.*1 ≡ₚ elements (dom g).
Proof.
  intros [Hnd Hlook]. apply NoDup_Permutation; [done|apply NoDup_elements|].
  intros k. rewrite elem_of_elements, elem_of_dom, <- lookup_elem_of.
  change (is_Some (AnyKey.lookup d k) ↔ is_Some (g !! k)).
  by rewrite <- Hlook.
Qed.

Lemma same_map_length d g : same_map d g → length d = size g.
Proof.
  intros Hsame. rewrite <- (length_fmap fst d).
  rewrite (Permutation_length (same_map_keys d g Hsame)).
  change (length (elements (dom g))) with (size (dom g)).
  apply size_dom.
Qed.

(** ** The code on the two kinds of map, call by call *)

Lemma outcome_rel_eq {A : Type} (c : outcome A) : outcome_rel eq c c.
Proof. destruct c; by constructor. Qed.

Lemma index_agree (s' : list (AnyKey.shard (K:=K) (V:=V)))
    (s : list (shard (K:=K) (V:=V))) (i : Z) :
  Forall2 same_shard s' s →
  outcome_rel same_shard (AnyKey.index s' i) (index s i).
Proof.
  intros Hs. unfold AnyKey.index, index. case_bool_decide; [|constructor].
  destruct (s' !! Z.to_nat i) as [ash|] eqn:Hl.
  - destruct (Forall2_lookup_l _ _ _ _ _ Hs Hl) as (sh & -> & Hsh).
    by constructor.
  - destruct (s !! Z.to_nat i) as [sh|] eqn:Hr; [|constructor].
    destruct (Forall2_lookup_r _ _ _ _ _ Hs Hr) as (ash & Hl' & _).
    congruence.
Qed.

Lemma store_shard_agree (i : Z) ash sh am m :
  same_store am m → same_shard ash sh →
  outcome_rel same_store (AnyKey.store_shard i ash am) (store_shard i sh m).
Proof.
  intros [Hn Hs] Hsh. unfold AnyKey.store_shard, store_shard.
  eapply outcome_rel_bind; [by apply index_agree|].
  intros _ _ _. constructor. split; [done|]. simpl. by apply Forall2_insert.
Qed.

Lemma on_mu_agree (op : RWMutex → outcome RWMutex) (i : Z) am m :
  same_store am m →
  outcome_rel same_store (AnyKey.on_mu op i am) (on_mu op i m).
Proof.
  intros Hm. pose proof Hm as [Hn Hs]. unfold AnyKey.on_mu, on_mu.
  eapply outcome_rel_bind; [by apply index_agree|].
  intros ash sh [Hmu Hd]. rewrite Hmu.
  eapply outcome_rel_bind; [apply outcome_rel_eq|].
  intros rw _ <-. by apply store_shard_agree.
Qed.

Lemma getShard_agree am m key :
  same_store am m → AnyKey.getShard am key = getShard m key.
Proof. intros [Hn _]. unfold AnyKey.getShard, getShard. by rewrite Hn. Qed.

Lemma map_index_agree (od : option (list (K * V))) (og : option (gmap K V)) key :
  option_Forall2 same_map od og → AnyKey.map_index od key = map_index og key.
Proof.
  intros [d g [_ Hlook]|]; [|done].
  unfold AnyKey.map_index, map_index. simpl.
  change (AnyKey.lookup d key) with (AnyKey.lookup (GoEq0:=identity_eq) d key).
  by rewrite Hlook.
Qed.

Lemma map_assign_agree (od : option (list (K * V))) (og : option (gmap K V))
    key value :
  option_Forall2 same_map od og →
  outcome_rel (option_Forall2 same_map)
    (AnyKey.map_assign od key value) (map_assign og key value).
Proof.
  intros [d g Hsame|]; simpl; [|constructor].
  constructor. constructor. by apply same_map_assign.
Qed.

Lemma map_delete_agree (od : option (list (K * V))) (og : option (gmap K V))
    key :
  option_Forall2 same_map od og →
  option_Forall2 same_map (AnyKey.map_delete od key) (map_delete og key).
Proof.
  intros [d g Hsame|]; simpl; constructor. by apply same_map_remove.
Qed.

Lemma map_len_agree (od : option (list (K * V))) (og : option (gmap K V)) :
  option_Forall2 same_map od og → AnyKey.map_len od = map_len og.
Proof.
  intros [d g Hsame|]; simpl; [|done]. by rewrite (same_map_length d g).
Qed.

Lemma Get_agree key am m :
  same_store am m →
  outcome_rel (λ x' x, x'.1 = x.1 ∧ same_store x'.2 x.2)
    (AnyKey.Get key am) (Get key m).
Proof.
  intros Hm. unfold AnyKey.Get, Get. rewrite (getShard_agree am m) by done.
  eapply outcome_rel_bind; [apply outcome_rel_eq|]. intros i _ <-.
  eapply outcome_rel_bind; [by apply on_mu_agree|]. intros am1 m1 Hm1.
  eapply outcome_rel_bind; [apply index_agree, Hm1|]. intros ash sh [_ Hd].
  rewrite (map_index_agree _ _ key Hd).
  destruct (map_index (data sh) key) as [value ok].
  eapply outcome_rel_bind; [by apply on_mu_agree|]. intros am2 m2 Hm2.
  by constructor.
Qed.

Lemma Set_agree key value am m :
  same_store am m →
  outcome_rel same_store (AnyKey.Set_ key value am) (Set_ key value m).
Proof.
  intros Hm. unfold AnyKey.Set_, Set_. rewrite (getShard_agree am m) by done.
  eapply outcome_rel_bind; [apply outcome_rel_eq|]. intros i _ <-.
  eapply outcome_rel_bind; [by apply on_mu_agree|]. intros am1 m1 Hm1.
  eapply outcome_rel_bind; [apply index_agree, Hm1|]. intros ash sh [Hmu Hd].
  eapply outcome_rel_bind; [by apply map_assign_agree|]. intros od og Hod.
  eapply outcome_rel_bind; [by apply store_shard_agree|]. intros am2 m2 Hm2.
  by apply on_mu_agree.
Qed.

Lemma Delete_agree key am m :
  same_store am m →
  outcome_rel same_store (AnyKey.Delete key am) (Delete key m).
Proof.
  intros Hm. unfold AnyKey.Delete, Delete. rewrite (getShard_agree am m) by done.
  eapply outcome_rel_bind; [apply outcome_rel_eq|]. intros i _ <-.
  eapply outcome_rel_bind; [by apply on_mu_agree|]. intros am1 m1 Hm1.
  eapply outcome_rel_bind; [apply index_agree, Hm1|]. intros ash sh [Hmu Hd].
  eapply outcome_rel_bind.
  { apply store_shard_agree; [done|]. split; [done|]. simpl.
    by apply map_delete_agree. }
  intros am2 m2 Hm2. by apply on_mu_agree.
Qed.

Lemma range_keys_agree order' order (i : Z)
    (od : option (list (K * V))) (og : option (gmap K V)) :
  AnyKey.valid_order order' → valid_order order →
  option_Forall2 same_map od og →
  AnyKey.range_keys order' i od ≡ₚ range_keys order i og.
Proof.
  intros Hord' Hord [d g Hsame|]; simpl; [|done].
  by rewrite (Hord' i d), (Hord i g), (same_map_keys d g).
Qed.

Lemma Keys_agree order' order am m :
  AnyKey.valid_order order' → valid_order order → same_store am m →
  outcome_rel (λ x' x, x'.1 ≡ₚ x.1 ∧ same_store x'.2 x.2)
    (AnyKey.Keys order' am) (Keys order m).
Proof.
  intros Hord' Hord Hm. unfold AnyKey.Keys, Keys, for_lt.
  rewrite (proj1 Hm).
  eapply (outcome_rel_bind (λ x' x, same_store x'.1 x.1 ∧ x'.2 = x.2)).
  { apply outcome_rel_for_each; [|done].
    intros i [am1 t'] [m1 t] [Hm1 Ht]. simpl in Hm1, Ht. subst t'.
    eapply outcome_rel_bind; [by apply on_mu_agree|]. intros am2 m2 Hm2.
    eapply outcome_rel_bind; [apply index_agree, Hm2|]. intros ash sh [_ Hd].
    cbn zeta. rewrite (map_len_agree _ _ Hd).
    eapply outcome_rel_bind; [by apply on_mu_agree|]. intros am3 m3 Hm3.
    by constructor. }
  intros [am1 t'] [m1 t] [Hm1 _]. simpl in Hm1. rewrite (proj1 Hm1).
  eapply (outcome_rel_bind (λ x' x, same_store x'.1 x.1 ∧ x'.2 ≡ₚ x.2)).
  { apply outcome_rel_for_each; [|done].
    intros i [am2 ks'] [m2 ks] [Hm2 Hks]. simpl in Hm2, Hks.
    eapply outcome_rel_bind; [by apply on_mu_agree|]. intros am3 m3 Hm3.
    eapply outcome_rel_bind; [apply index_agree, Hm3|]. intros ash sh [_ Hd].
    cbn zeta.
    eapply outcome_rel_bind; [by apply on_mu_agree|]. intros am4 m4 Hm4.
    constructor. split; [done|]. simpl.
    by rewrite Hks, (range_keys_agree order' order i _ _ Hord' Hord Hd). }
  intros [am2 ks'] [m2 ks] [Hm2 Hks]. by constructor.
Qed.

Lemma NewShardedMap_agree (n : Z) :
  outcome_rel same_store
    (AnyKey.NewShardedMap (K:=K) (V:=V) n) (NewShardedMap (K:=K) (V:=V) n).
Proof.
  unfold AnyKey.NewShardedMap, NewShardedMap.
  case_bool_decide; [constructor|].
  eapply (outcome_rel_bind (Forall2 same_shard)).
  { unfold AnyKey.make_shards, make_shards.
    case_bool_decide; constructor.
    apply Forall2_replicate. split; [done|]. constructor. }
  intros s' s Hs. unfold for_lt.
  apply outcome_rel_for_each; [|by split].
  intros i am m Hm. apply store_shard_agree; [done|].
  split; [done|]. constructor. apply same_map_empty.
Qed.

Lemma exec_agree order' order (o : op (K:=K) (V:=V)) am m :
  AnyKey.valid_order order' → valid_order order → same_store am m →
  outcome_rel (λ x' x, same_resp x'.1 x.1 ∧ same_store x'.2 x.2)
    (AnyKey.exec order' o am) (exec order o m).
Proof.
  intros Hord' Hord Hm. destruct o as [key|key value|key|]; simpl.
  - eapply outcome_rel_bind; [by apply Get_agree|].
    intros [[v' ok'] am1] [[v ok] m1] [[= -> ->] Hm1]. by constructor.
  - eapply outcome_rel_bind; [by apply Set_agree|].
    intros am1 m1 Hm1. by constructor.
  - eapply outcome_rel_bind; [by apply Delete_agree|].
    intros am1 m1 Hm1. by constructor.
  - eapply outcome_rel_bind; [by apply Keys_agree|].
    intros [ks' am1] [ks m1] [Hks Hm1]. by constructor.
Qed.

Lemma run_agree order' order (os : list (op (K:=K) (V:=V))) am m :
  AnyKey.valid_order order' → valid_order order → same_store am m →
  outcome_rel (λ x' x, Forall2 same_resp x'.1 x.1 ∧ same_store x'.2 x.2)
    (AnyKey.run order' os am) (run order os m).
Proof.
  intros Hord' Hord. revert am m.
  induction os as [|o os IH]; intros am m Hm; simpl.
  - constructor. by split.
  - eapply outcome_rel_bind; [by apply exec_agree|].
    intros [r' am1] [r m1] [Hr Hm1].
    eapply outcome_rel_bind; [by apply IH|].
    intros [rs' am2] [rs m2] [Hrs Hm2]. constructor. split; [|done].
    by constructor.
Qed.

(** On a key type whose [==] is identity, the code embedded for every key
    type and the code embedded with [gmap]s do the same: [NewShardedMap(n)]
    followed by any calls ends in the same panic or block, or returns the
    same results, the keys of [Keys] in whatever order each map is
    iterated. *)
Theorem identity_keys_agree (n : Z) order' order
    (os : list (op (K:=K) (V:=V))) :
  AnyKey.valid_order order' → valid_order order →
  outcome_rel (Forall2 same_resp)
    (am ← AnyKey.NewShardedMap n; x ← AnyKey.run order' os am; Ok x.1)
    (m ← NewShardedMap n; x ← run order os m; Ok x.1).
Proof.
  intros Hord' Hord.
  eapply outcome_rel_bind; [apply NewShardedMap_agree|]. intros am m Hm.
  eapply outcome_rel_bind; [by apply run_agree|].
  intros [rs' am1] [rs m1] [Hrs _]. by constructor.
Qed.

End Agreement.

(** * The tests, run *)

(** A derivation of [steps], by running the calls. *)
Ltac by_running :=
  apply (run_steps map_order); [apply valid_map_order|vm_compute; reflexivity].

Lemma is_int_16 : is_int 16.
Proof. unfold is_int, int_min, int_max. lia. Defined.

Lemma is_int_8 : is_int 8.
Proof. unfold is_int, int_min, int_max. lia. Defined.

Lemma new16 : NewShardedMap 16 = Ok store16.
Proof. vm_compute. reflexivity. Defined.

Lemma new8 : NewShardedMap 8 = Ok store8.
Proof. vm_compute. reflexivity. Defined.

Lemma reachable_store16_foo : reachable 16 store16_foo.
Proof.
  exists store16, [OpSet "foo" 42], [RDone]. split; [apply new16|by_running].
Defined.

Lemma wf_store16_foo : wf store16_foo.
Proof. apply (bool_decide_unpack (wf store16_foo)). vm_compute. exact I. Defined.

(** FNV-1a test vectors. *)
Example hashKey_vectors :
  hashKey "" = 0xcbf29ce484222325 ∧ hashKey "a" = 0xaf63dc4c8601ec8c ∧
  hashKey "foobar" = 0x85944171f73967e8.
Proof. vm_compute. done. Qed.

Example Sprintf_v_int :
  Sprintf_v 0 = "0" ∧ Sprintf_v 1000000 = "1000000" ∧ Sprintf_v (-42) = "-42".
Proof. vm_compute. done. Qed.

(** Why [NewShardedMap] must be called, and must make the maps. *)
Example zero_store_panics :
  Get "foo" zero_store = Panic "integer divide by zero" ∧
  Set_ "foo" 42 nil_maps_store = Panic "assignment to entry in nil map" ∧
  Get "foo" nil_maps_store = Ok (0, false, nil_maps_store).
Proof. vm_compute. done. Qed.

(** [TestShardedMap_IntKeys] passes. *)
Example int_keys :
  ∃ m0 m, NewShardedMap 16 = Ok m0 ∧
    steps m0 int_key_calls
      [RDone; RDone; RDone; RGet "one" true; RGet "million" true] m.
Proof.
  eexists _, _. split; [vm_compute; reflexivity|]. by_running.
Qed.

(** [TestShardedMap_BasicOperations] passes. *)
Example basic_operations : steps store16 basic_calls basic_results store16.
Proof. by_running. Qed.

Lemma Get_after_Set_witness :
  ∃ m1, Set_ "foo" 42 store16 = Ok m1 ∧
    ∀ os rs m2, steps m1 os rs m2 → Forall (λ o, ¬ writes "foo" o) os →
      Get "foo" m2 = Ok (42, true, m2).
Proof.
  apply (Get_after_Set 16 store16 "foo" 42); [apply is_int_16|lia|].
  exists store16, [], []. split; [apply new16|apply steps_nil].
Defined.

Lemma fully_deleted_foo : fully_deleted "foo" basic_calls.
Proof.
  intros pre value post Heq. unfold basic_calls in Heq.
  do 8 (destruct pre as [|? pre]; simplify_eq/=;
        try (repeat constructor; fail)).
Defined.

Lemma Get_absent_witness : Get "foo" store16 = Ok (0, false, store16).
Proof.
  apply (Get_absent 16 store16 basic_calls basic_results store16 "foo").
  - apply is_int_16.
  - lia.
  - apply new16.
  - by_running.
  - right. apply fully_deleted_foo.
Defined.

Lemma NewShardedMap_spec_witness :
  (panics (NewShardedMap (K:=string) (V:=Z) 16) ↔ 16 < 1 ∨ max_shards < 16) ∧
  (NewShardedMap (K:=string) (V:=Z) 16 = Panic "numShards must be at least 1"
   ↔ 16 < 1) ∧
  (1 ≤ 16 ≤ max_shards →
   ∃ m, NewShardedMap 16 = Ok m ∧ numShards m = 16 ∧
        Z.of_nat (length (shards m)) = 16 ∧
        Forall (λ sh, sh = empty_shard) (shards m) ∧
        (∀ key : string, Get key m = Ok (0, false, m)) ∧
        (∀ order, valid_order order → Keys order m = Ok ([], m))).
Proof. apply (NewShardedMap_spec 16). apply is_int_16. Defined.

Lemma steps_five_sets : steps store8 five_sets (replicate 5 RDone) store8_five.
Proof. by_running. Defined.

Lemma Keys_exact_witness :
  ∃ keys, Keys map_order store8_five = Ok (keys, store8_five) ∧ NoDup keys ∧
    (∀ key, key ∈ keys ↔ ∃ i, holds store8_five i key) ∧
    (∀ key, key ∈ keys ↔
            ∃ value, Get key store8_five = Ok (value, true, store8_five)) ∧
    (∀ key, key ∈ keys ↔ is_Some (model_run five_sets ∅ !! key)).
Proof.
  apply (Keys_exact 8 store8 five_sets (replicate 5 RDone) store8_five map_order).
  - apply is_int_8.
  - lia.
  - apply new8.
  - apply steps_five_sets.
  - apply valid_map_order.
Defined.

(** [TestShardedMap_Keys] passes: five keys, the five inserted. *)
Example five_keys :
  ∃ keys, Keys map_order store8_five = Ok (keys, store8_five) ∧
          length keys = 5%nat ∧ keys ≡ₚ ["a"; "b"; "c"; "d"; "e"].
Proof.
  eexists. split; [vm_compute; reflexivity|]. split; [done|].
  apply (bool_decide_unpack _). vm_compute. exact I.
Qed.

Lemma Delete_idempotent_witness :
  ∃ m1, Delete "foo" store16_foo = Ok m1 ∧ Delete "foo" m1 = Ok m1 ∧
        Get "foo" m1 = Ok (0, false, m1) ∧
        ((∃ value, Get "foo" store16_foo = Ok (value, false, store16_foo)) →
         m1 = store16_foo).
Proof. apply (Delete_idempotent store16_foo "foo"). apply wf_store16_foo. Defined.

Lemma Set_overwrites_witness :
  ∃ m1 m2, Set_ "foo" 42 store16_foo = Ok m1 ∧ Set_ "foo" 100 m1 = Ok m2 ∧
           Get "foo" m2 = Ok (100, true, m2) ∧
           Set_ "foo" 100 store16_foo = Ok m2.
Proof. apply (Set_overwrites store16_foo "foo" 42 100). apply wf_store16_foo. Defined.

Lemma getShard_in_bounds_witness :
  hashKey "foo" = fnv1a64_spec (bytes_of (Sprintf_v "foo")) ∧
  is_uint64 (hashKey "foo") ∧
  ∃ i, getShard store16_foo "foo" = Ok i ∧ i = hashKey "foo" `mod` 16 ∧
       0 ≤ i < 16 ∧ 16 = Z.of_nat (length (shards store16_foo)) ∧
       returns (index (shards store16_foo) i) ∧
       returns (Get "foo" store16_foo) ∧
       (∀ value, returns (Set_ "foo" value store16_foo)) ∧
       returns (Delete "foo" store16_foo) ∧
       (16 = 1 → i = 0).
Proof.
  apply (getShard_in_bounds 16 store16_foo "foo");
    [apply is_int_16|lia|apply reachable_store16_foo].
Defined.

Lemma shard_placement_witness :
  (∀ i key, holds store16_foo i key →
            getShard store16_foo key = Ok (Z.of_nat i)) ∧
  (∀ i j key, holds store16_foo i key → holds store16_foo j key → i = j) ∧
  (∀ key, (∃ i, holds store16_foo i key) →
          ∃ i, holds store16_foo i key ∧ ∀ j, holds store16_foo j key → j = i).
Proof.
  apply (shard_placement 16 store16_foo);
    [apply is_int_16|lia|apply reachable_store16_foo].
Defined.

Lemma new1 : NewShardedMap 1 = Ok store1.
Proof. vm_compute. reflexivity. Defined.

Lemma one_shard_equivalent_witness :
  (∃ rs1 m1' rsn mn', steps store1 basic_calls rs1 m1' ∧
                      steps store16 basic_calls rsn mn') ∧
  (∀ rs1 m1' rsn mn', steps store1 basic_calls rs1 m1' →
     steps store16 basic_calls rsn mn' → Forall2 resp_equiv rs1 rsn).
Proof.
  apply (one_shard_equivalent 16 store1 store16 basic_calls);
    [apply is_int_16|lia|apply new1|apply new16].
Defined.

Lemma getShard_deterministic_witness :
  (∀ m m' : ShardedMap (K:=string) (V:=Z),
     numShards m = 16 → numShards m' = 16 →
     getShard m "foo" = getShard m' "foo") ∧
  (∀ m : ShardedMap (K:=string) (V:=Z),
     reachable 16 m → getShard m "foo" = Ok (hashKey "foo" `mod` 16)).
Proof. apply (getShard_deterministic 16 "foo"); [apply is_int_16|lia]. Defined.

(** * More of the code, run *)


Lemma Keys_read_only_witness :
  ∃ keys m', Keys map_order store16_foo_read = Ok (keys, m') ∧
             m' = store16_foo_read.
Proof.
  eexists _, _. split; [vm_compute; reflexivity|].
  apply (Keys_read_only map_order store16_foo_read ["foo"]).
  vm_compute. reflexivity.
Defined.

Lemma Set_returns_iff_witness :
  ∃ i sh g, getShard store16 "foo" = Ok i ∧ 0 ≤ i ∧
            shards store16 !! Z.to_nat i = Some sh ∧ mu sh = unlocked ∧
            data sh = Some g ∧
            store16_foo = with_data i (Some (<["foo" := 42]> g)) store16.
Proof.
  apply (proj1 (Set_returns_iff store16 "foo" 42 store16_foo)).
  vm_compute. reflexivity.
Defined.

Lemma Delete_returns_iff_witness :
  ∃ i sh, getShard store16_foo "foo" = Ok i ∧ 0 ≤ i ∧
          shards store16_foo !! Z.to_nat i = Some sh ∧ mu sh = unlocked ∧
          store16 = with_data i (map_delete (data sh) "foo") store16_foo.
Proof.
  apply (proj1 (Delete_returns_iff store16_foo "foo" store16)).
  vm_compute. reflexivity.
Defined.

Lemma wf_store16 : wf store16.
Proof. apply (bool_decide_unpack (wf store16)). vm_compute. exact I. Defined.

Lemma wf_store8_five : wf store8_five.
Proof. apply (bool_decide_unpack (wf store8_five)). vm_compute. exact I. Defined.

Lemma Set_Delete_cancel_witness :
  ∃ m1 m2, Set_ "foo" 42 store16 = Ok m1 ∧ Delete "foo" m1 = Ok m2 ∧
           Delete "foo" store16 = Ok m2 ∧ Set_ "foo" 42 m2 = Ok m1 ∧
           ((∃ v, Get "foo" store16 = Ok (v, false, store16)) → m2 = store16).
Proof. apply (Set_Delete_cancel store16 "foo" 42). apply wf_store16. Defined.

Lemma writes_commute_witness :
  ∃ m', run map_order [OpSet "a" 7; OpDelete "foo"] store16_foo
        = Ok ([RDone; RDone], m') ∧
        run map_order [OpDelete "foo"; OpSet "a" 7] store16_foo
        = Ok ([RDone; RDone], m').
Proof.
  apply (writes_commute map_order store16_foo (OpSet "a" 7) (OpDelete "foo")
           "a" "foo").
  - apply wf_store16_foo.
  - reflexivity.
  - reflexivity.
  - discriminate.
Defined.

Lemma write_frame_witness :
  numShards store16_foo = numShards store16 ∧
  length (shards store16_foo) = length (shards store16) ∧
  (∀ j, mu <$> shards store16_foo !! j = mu <$> shards store16 !! j) ∧
  (∀ k' v ok, k' ≠ "foo" →
     Get k' store16_foo = Ok (v, ok, store16_foo) ↔
     Get k' store16 = Ok (v, ok, store16)).
Proof.
  apply (write_frame store16 (OpSet "foo" 42) RDone store16_foo "foo").
  - apply step_Set. vm_compute. reflexivity.
  - reflexivity.
Defined.

Lemma behaves_as_one_map_witness :
  model_resps ∅ basic_calls basic_results ∧
  (∀ key, Get key store16
          = Ok (map_index (Some (model_run basic_calls ∅)) key, store16)) ∧
  (∀ order, valid_order order →
     ∃ keys, Keys order store16 = Ok (keys, store16) ∧
             keys ≡ₚ elements (dom (model_run basic_calls ∅))).
Proof.
  apply (behaves_as_one_map 16 store16 basic_calls basic_results store16).
  - apply is_int_16.
  - apply new16.
  - by_running.
Defined.

Lemma Keys_capacity_exact_witness :
  ∃ keys total, count_pass store8_five = Ok (store8_five, total) ∧
                Keys map_order store8_five = Ok (keys, store8_five) ∧
                total = Z.of_nat (length keys).
Proof.
  apply (Keys_capacity_exact map_order store8_five).
  - apply wf_store8_five.
  - apply valid_map_order.
Defined.

Lemma zero_value_store_witness :
  Get "foo" zero_store = Panic "integer divide by zero" ∧
  Set_ "foo" 42 zero_store = Panic "integer divide by zero" ∧
  Delete "foo" zero_store = Panic "integer divide by zero" ∧
  Keys map_order zero_store = Ok ([], zero_store).
Proof. apply (zero_value_store map_order zero_store "foo" 42). reflexivity. Defined.

Lemma is_int_64 : is_int 64.
Proof. unfold is_int, int_min, int_max. lia. Defined.

Lemma new64 : NewShardedMap 64 = Ok store64.
Proof. vm_compute. reflexivity. Defined.

Lemma populate_spec_witness :
  ∃ m, populate 10000 store64 = Ok m ∧
    (∀ j, Get j m = Ok (if bool_decide (0 ≤ j < 10000) then (j, true)
                        else (0, false), m)) ∧
    (∀ i, 0 ≤ i → 0 < 10000 →
          Get (Z.rem i 10000) m = Ok (Z.rem i 10000, true, m)) ∧
    (∀ order, valid_order order →
       ∃ keys, Keys order m = Ok (keys, m) ∧ Z.of_nat (length keys) = 10000).
Proof.
  apply (populate_spec 64 10000 store64); [apply is_int_64|apply new64|lia].
Defined.

Lemma New_last_option_wins_witness :
  Aggregator.timeout
    (Aggregator.New "default" 0%nat 1%nat
       ([Aggregator.WithLogger "a"; Aggregator.WithTimeout 5]
        ++ Aggregator.WithTimeout 100000000 :: [Aggregator.WithLogger "b"]))
  = 100000000.
Proof.
  apply (proj1 (New_last_option_wins "default" 0%nat 1%nat
                  [Aggregator.WithLogger "a"; Aggregator.WithTimeout 5]
                  [Aggregator.WithLogger "b"] 100000000 "c")).
  repeat constructor. by exists "b".
Defined.

Lemma New_defaults_witness :
  let opts : list (Aggregator.Option (Logger:=string) (Func:=nat)) :=
    [Aggregator.WithLogger "a"; Aggregator.WithLogger "b"] in
  let agg := Aggregator.New "default" 0%nat 1%nat opts in
  Aggregator.profileFunc agg = 0%nat ∧
  Aggregator.orderFunc agg = 1%nat ∧
  (Forall Aggregator.sets_logger opts →
   Aggregator.timeout agg = 2 * Aggregator.Second) ∧
  (Forall Aggregator.sets_timeout opts →
   Aggregator.logger agg = "default").
Proof.
  apply (New_defaults "default" 0%nat 1%nat
           [Aggregator.WithLogger "a"; Aggregator.WithLogger "b"]).
  apply Forall_cons; split; [right; by exists "a"|].
  apply Forall_cons; split; [right; by exists "b"|apply Forall_nil_2].
Defined.

(** * Where the properties stop: [float64] keys and huge shard counts

    Runs of the code, embedded for every comparable key type ([AnyKey]), on
    stores of [float64] keys as [NewShardedMap] makes them. With 16 shards
    "0" routes to shard 15, "-0" to shard 8 and "NaN" to shard 10. *)

Lemma fstore_new :
  AnyKey.NewShardedMap 1 = Ok (fstore 1) ∧
  AnyKey.NewShardedMap 16 = Ok (fstore 16).
Proof. vm_compute. done. Qed.

Example float64_routes :
  go_eq Zero NegZero = true ∧ go_eq NaN NaN = false ∧
  AnyKey.getShard (fstore 16) Zero = Ok 15 ∧
  AnyKey.getShard (fstore 16) NegZero = Ok 8 ∧
  AnyKey.getShard (fstore 16) NaN = Ok 10.
Proof. vm_compute. done. Qed.

(** C1 as worded fails. After [Set(NaN, 1)], [Get(NaN)] answers
    [(0, false)]; and after [Set(0, 1)] on 16 shards, [Get(-0)], a [Get] of
    the same key by [==], answers [(0, false)]. *)
Lemma Get_after_Set_counterexample :
  AnyKey.NewShardedMap 16 = Ok (fstore 16) ∧
  ((∃ m, AnyKey.run AnyKey.entry_order [OpSet NaN 1; OpGet NaN] (fstore 16)
        = Ok ([RDone; RGet 0 false], m)) ∧
  go_eq Zero NegZero = true ∧
  (∃ m, AnyKey.run AnyKey.entry_order [OpSet Zero 1; OpGet NegZero] (fstore 16)
        = Ok ([RDone; RGet 0 false], m))).
Proof.
  split; [vm_compute; reflexivity|].
  split_and!; [eexists|..|eexists]; vm_compute; reflexivity.
Qed.

(** C2 as worded fails. On 16 shards, after [Set(0, 1)] and [Delete(-0)],
    a [Delete] of the same key by [==], [Get(0)] still answers [(1, true)];
    and on 1 shard, after [Set(0, 1)], [Get(-0)] answers [(1, true)] for a
    key value that no call inserted. *)
Lemma Get_absent_counterexample :
  AnyKey.NewShardedMap 16 = Ok (fstore 16) ∧
  AnyKey.NewShardedMap 1 = Ok (fstore 1) ∧
  (go_eq NegZero Zero = true ∧
  (∃ m, AnyKey.run AnyKey.entry_order
          [OpSet Zero 1; OpDelete NegZero; OpGet Zero] (fstore 16)
        = Ok ([RDone; RDone; RGet 1 true], m)) ∧
  (∃ m, AnyKey.run AnyKey.entry_order
          [OpSet Zero 1; OpGet NegZero] (fstore 1)
        = Ok ([RDone; RGet 1 true], m))).
Proof.
  split; [vm_compute; reflexivity|]. split; [vm_compute; reflexivity|].
  split_and!; [|eexists..]; vm_compute; reflexivity.
Qed.

(** C3 as worded fails. [NewShardedMap(2^62)] panics, in [make], though
    2^62 is an [int] that is not less than 1. *)
Lemma NewShardedMap_spec_counterexample :
  is_int (2 ^ 62) ∧ 1 ≤ 2 ^ 62 ∧
  NewShardedMap (K:=string) (V:=Z) (2 ^ 62)
  = Panic "makeslice: len out of range" ∧
  ¬ (panics (NewShardedMap (K:=string) (V:=Z) (2 ^ 62)) ↔ 2 ^ 62 < 1).
Proof.
  split_and!.
  - unfold is_int, int_min, int_max. lia.
  - lia.
  - vm_compute. reflexivity.
  - intros [Hlt _]. assert (2 ^ 62 < 1) as Habs; [|lia].
    apply Hlt. eexists. vm_compute. reflexivity.
Qed.

(** C4 as worded fails. On 16 shards, after [Set(0, 1)] and [Set(-0, 2)],
    [Keys] returns -0 and 0, one key by [==], twice; and after [Set(NaN, 1)]
    and [Set(NaN, 2)] it returns NaN twice. *)
Lemma Keys_exact_counterexample :
  AnyKey.NewShardedMap 16 = Ok (fstore 16) ∧
  ((∃ m, AnyKey.run AnyKey.entry_order
          [OpSet Zero 1; OpSet NegZero 2; OpKeys] (fstore 16)
        = Ok ([RDone; RDone; RKeys [NegZero; Zero]], m)) ∧
  go_eq NegZero Zero = true ∧
  (∃ m, AnyKey.run AnyKey.entry_order
          [OpSet NaN 1; OpSet NaN 2; OpKeys] (fstore 16)
        = Ok ([RDone; RDone; RKeys [NaN; NaN]], m)) ∧
  ¬ NoDup [NaN; NaN]).
Proof.
  split; [vm_compute; reflexivity|].
  split_and!; [eexists; vm_compute; reflexivity|reflexivity
              |eexists; vm_compute; reflexivity|].
  intros Hnd. apply NoDup_cons in Hnd as [Hnin _].
  apply Hnin, list_elem_of_here.
Qed.

(** C6 as worded fails. After [Set(NaN, 1)] and [Set(NaN, 2)], [Get(NaN)]
    answers [(0, false)] and the store holds two entries, where
    [Set(NaN, 2)] alone leaves one; and on 16 shards, after [Set(0, 1)] and
    [Set(-0, 2)], an overwrite of the same key by [==], [Get(0)] answers
    [(1, true)]. *)
Lemma Set_overwrites_counterexample :
  AnyKey.NewShardedMap 16 = Ok (fstore 16) ∧
  ((∃ m12 m2,
     AnyKey.run AnyKey.entry_order [OpSet NaN 1; OpSet NaN 2; OpGet NaN]
       (fstore 16) = Ok ([RDone; RDone; RGet 0 false], m12) ∧
     AnyKey.Set_ NaN 2 (fstore 16) = Ok m2 ∧ m12 ≠ m2) ∧
  (∃ m, AnyKey.run AnyKey.entry_order
          [OpSet Zero 1; OpSet NegZero 2; OpGet Zero] (fstore 16)
        = Ok ([RDone; RDone; RGet 1 true], m))).
Proof.
  split; [vm_compute; reflexivity|].
  split.
  - eexists _, _. split_and!; [vm_compute; reflexivity..|].
    intros Heq. discriminate Heq.
  - eexists. vm_compute. reflexivity.
Qed.

(** C8 as worded fails. On 16 shards, after [Set(0, 1)] and [Set(-0, 2)],
    the key 0 is found in the map of shard 8, where -0 was put, while it is
    routed to shard 15, whose map holds it too. *)
Lemma shard_placement_counterexample :
  AnyKey.NewShardedMap 16 = Ok (fstore 16) ∧
  (∃ m, AnyKey.run AnyKey.entry_order [OpSet Zero 1; OpSet NegZero 2]
         (fstore 16) = Ok ([RDone; RDone], m) ∧
       AnyKey.holds m 8 Zero ∧ AnyKey.holds m 15 Zero ∧
       AnyKey.getShard m Zero = Ok 15).
Proof.
  split; [vm_compute; reflexivity|].
  eexists. split_and!.
  - vm_compute. reflexivity.
  - eexists _, _. split_and!; [reflexivity..|]. by eexists.
  - eexists _, _. split_and!; [reflexivity..|]. by eexists.
  - vm_compute. reflexivity.
Qed.

(** C9 as worded fails. The calls [Set(0, 1)], [Set(-0, 2)], [Get(0)] end
    with [(2, true)] on a store from [NewShardedMap(1)] and with [(1, true)]
    on a store from [NewShardedMap(16)]. *)
Lemma one_shard_equivalent_counterexample :
  AnyKey.NewShardedMap 1 = Ok (fstore 1) ∧
  AnyKey.NewShardedMap 16 = Ok (fstore 16) ∧
  (∃ m, AnyKey.run AnyKey.entry_order
          [OpSet Zero 1; OpSet NegZero 2; OpGet Zero] (fstore 1)
        = Ok ([RDone; RDone; RGet 2 true], m)) ∧
  (∃ m, AnyKey.run AnyKey.entry_order
          [OpSet Zero 1; OpSet NegZero 2; OpGet Zero] (fstore 16)
        = Ok ([RDone; RDone; RGet 1 true], m)).
Proof. split_and!; [..|eexists|eexists]; vm_compute; reflexivity. Qed.

(** X5 and X8 stop at [float64] too. A [Delete(NaN)] does not remove what
    [Set(NaN, 1)] put, so [Set] then [Delete] is not [Delete] alone; and a
    single Go map finds -0 after 0 was assigned, where the store of 16
    shards does not. *)
Example float64_limits :
  (∃ m1 m2,
     AnyKey.run AnyKey.entry_order [OpSet NaN 1; OpDelete NaN] (fstore 16)
     = Ok ([RDone; RDone], m1) ∧
     AnyKey.Delete NaN (fstore 16) = Ok m2 ∧ m1 ≠ m2) ∧
  AnyKey.lookup (AnyKey.assign [] Zero 1) NegZero = Some 1 ∧
  (∃ m, AnyKey.run AnyKey.entry_order [OpSet Zero 1; OpGet NegZero] (fstore 16)
        = Ok ([RDone; RGet 0 false], m)).
Proof.
  split_and!.
  - eexists _, _. split_and!; [vm_compute; reflexivity..|].
    intros Heq. discriminate Heq.
  - reflexivity.
  - eexists. vm_compute. reflexivity.
Qed.

(** With string keys the two embeddings run [TestShardedMap_BasicOperations]
    alike. *)
Example identity_keys_agree_strings :
  outcome_rel (Forall2 same_resp)
    (am ← AnyKey.NewShardedMap 16;
     x ← AnyKey.run (GoEq0:=identity_eq) AnyKey.entry_order basic_calls am;
     Ok x.1)
    (m ← NewShardedMap 16; x ← run map_order basic_calls m; Ok x.1).
Proof.
  apply (identity_keys_agree 16 AnyKey.entry_order map_order basic_calls).
  - intros i d. reflexivity.
  - apply valid_map_order.
Qed.
